(** * adviser: a caching HTTP gateway in front of a place-search API

    Shallow embedding of the three variants of the service found in the
    repository, and the properties of its request orchestration:

    - the variant with the LRU cache and the worker goroutine raced against
      the request context ([Cached], the file with [pullAndResponse]),
    - the variant with structured logging and no cache ([Logged],
      [adviser.go]),
    - the first, plain variant ([Plain]).

    Library code the program calls (net/http, context, encoding/json,
    hashicorp/golang-lru) is modelled from its documented contract, as far as
    the program uses it; every such definition says so. *)

From Stdlib Require Import Ascii.
From stdpp Require Import base numbers list strings.

Set Warnings "-register-all".

Local Open Scope string_scope.
Local Open Scope Z_scope.
Local Open Scope list_scope.

(** ** Machine integers and durations *)

(** Go's [int64] with wrap-around; [time.Duration] is an [int64] count of
    nanoseconds. *)
Definition int64 (z : Z) : Z := (z + 2 ^ 63) `mod` 2 ^ 64 - 2 ^ 63.

Definition mul64 (a b : Z) : Z := int64 (a * b).

(** [time.Millisecond], [time.Second] *)
Definition Millisecond : Z := 1000000.
Definition Second : Z := 1000 * Millisecond.

(** [net/http] status codes used by the program *)
Definition StatusOK : Z := 200.
Definition StatusInternalServerError : Z := 500.
Definition StatusGatewayTimeout : Z := 504.

(** ** Strings *)

(** The double quote character (code 34). *)
Definition dq : string := String (Ascii false true false false false true false false) EmptyString.

Definition quoted (s : string) : string := dq +:+ s +:+ dq.

Definition applicationJSON : string := "application/json".
Definition contentType : string := "Content-Type".

(** [internalErr]: the bytes of [{"error": "internal error"}]. *)
Definition internalErr : string :=
  "{" +:+ quoted "error" +:+ ": " +:+ quoted "internal error" +:+ "}".

(** ** Data model *)

(** [inputItem]. The struct declares twelve fields; the program reads
    [Code], [Name] and [CountryName] only (the others reach the logger and
    nothing else), so the record keeps these three. The decoder below still
    checks the values of all twelve against their declared Go types. *)
Record inputItem := mkInputItem {
  Code : string;
  Name : string;
  CountryName : string
}.

(** [outputItem] *)
Record outputItem := mkOutputItem {
  Slug : string;
  Subtitle : string;
  Title : string
}.

(** [inputResp] is [[]*inputItem], [outputResp] is [[]*outputItem]: slices of
    pointers, [None] being the nil pointer. *)
Abbreviation inputResp := (list (option inputItem)).
Abbreviation outputResp := (list (option outputItem)).

(** The errors [request] can return. *)
Inductive error :=
  | ErrNewRequest          (* http.NewRequest rejects the URL *)
  | ErrTransport           (* client.Do fails, the context being done included *)
  | ErrStatus (code : Z)   (* upstream status other than 200 *)
  | ErrRead                (* ioutil.ReadAll fails *)
  | ErrDecode.             (* json.Unmarshal fails *)

(** ** The transformer: the loop "Makes a result" of [handler] / [handlerFunc] *)

(** The composite literal [&outputItem{Slug: .Code, Subtitle: .CountryName,
    Title: .Name}]. *)
Definition makeItem (it : inputItem) : outputItem :=
  {| Slug := Code it; Subtitle := CountryName it; Title := Name it |}.

(** One iteration [output[k] = &outputItem{...input[k]...}]; reading a field
    through a nil [input[k]] panics ([None]). *)
Definition transform_iter (input : inputResp) (acc : option outputResp) (k : nat)
  : option outputResp :=
  output ← acc;
  p ← input !! k;
  it ← p;
  Some (<[k := Some (makeItem it)]> output).

(** [output := make(outputResp, len(input)); for k := range input {...}] *)
Definition transform (input : inputResp) : option outputResp :=
  foldl (transform_iter input)
        (Some (replicate (length input) None))
        (seq 0 (length input)).

(** ** The response writer *)

(** Calls made on a [http.ResponseWriter], in the order they are made. The
    errors [Write] can return (a broken connection) are left out: the
    program logs or drops them. *)
Inductive wcall :=
  | HeaderAdd (key value : string)
  | WriteHeader (code : Z)
  | Write (data : string).

Abbreviation writer := (list wcall).

(** Contract of [http.ResponseWriter]: the status line is fixed by the first
    [WriteHeader], or by the first [Write] (which sends 200) when no
    [WriteHeader] came before; later [WriteHeader] calls are ignored. *)
Fixpoint status_of (w : writer) : option Z :=
  match w with
  | [] => None
  | HeaderAdd _ _ :: w' => status_of w'
  | WriteHeader c :: _ => Some c
  | Write _ :: _ => Some StatusOK
  end.

(** The data of all [Write] calls, in order. It is the body the client
    gets as far as the calls are made while [handlerFunc] runs: net/http
    does not deliver what is written after the handler has returned, and
    the theorems below read a body off a writer only up to that point. *)
Fixpoint body_of (w : writer) : string :=
  match w with
  | [] => EmptyString
  | Write d :: w' => d +:+ body_of w'
  | _ :: w' => body_of w'
  end.

(** Number of [Write] calls, and of status-or-body calls. *)
Definition is_body (c : wcall) : bool :=
  match c with Write _ => true | _ => false end.

Definition is_status (c : wcall) : bool :=
  match c with WriteHeader _ => true | _ => false end.

Definition body_writes (w : writer) : nat := length (filter (λ c, is_body c = true) w).
Definition status_writes (w : writer) : nat := length (filter (λ c, is_status c = true) w).

(** ** Decoding the upstream body: [json.Unmarshal(body, &result)]

    [encoding/json] is library code. The model starts from the parsed JSON
    document (a body that is not JSON text is the reply [Malformed] below) and
    follows the documented rules of [Unmarshal] for the target [inputResp],
    field by field of the [inputItem] declaration. *)
Module Json.

(** A number literal: an integer literal, or one with a fraction or an
    exponent, of value [m * 10 ^ e]. *)
Inductive number :=
  | Int (n : Z)
  | Dec (m e : Z).

Inductive json :=
  | JNull
  | JBool (b : bool)
  | JNumber (n : number)
  | JString (s : string)
  | JArray (elems : list json)
  | JObject (members : list (string * json)).

(** [strconv.ParseInt(s, 10, 64)]: integer literals in the [int64] range. *)
Definition fits_int64 (n : number) : bool :=
  match n with
  | Int z => (- 2 ^ 63 <=? z) && (z <? 2 ^ 63)
  | Dec _ _ => false
  end.

(** [strconv.ParseFloat(s, 64)] reports a range error when the literal
    rounds to an infinity, that is from [2^1024 - 2^970] on. *)
Definition float64_limit : Z := 2 ^ 1024 - 2 ^ 970.

Definition fits_float64 (n : number) : bool :=
  match n with
  | Int z => Z.abs z <? float64_limit
  | Dec m e =>
      if 0 <=? e then Z.abs m * 10 ^ e <? float64_limit
      else Z.abs m <? float64_limit * 10 ^ (- e)
  end.

(** A value stored into an [interface{}]: every number in it is converted
    to [float64] ([convertNumber]), everything else is taken as it is. *)
Fixpoint numbers_fit (j : json) : bool :=
  match j with
  | JNumber n => fits_float64 n
  | JArray elems => forallb numbers_fit elems
  | JObject members => forallb (λ kv : string * json, let (_, v) := kv in numbers_fit v) members
  | _ => true
  end.

(** The Go types of the fields of [inputItem]. *)
Inductive gotype :=
  | TString | TInt64 | TStrings | TMapString | TMapFloat64 | TInterface.

Inductive field :=
  | IndexStrings | CountryCode | StateCode | Cases | Coordinates
  | CountryCases | FCode | FName | Weight | Type_ | FCountryName
  | MainAirportName.

(** The [json:"..."] tags. *)
Definition tag (f : field) : string :=
  match f with
  | IndexStrings => "index_strings"
  | CountryCode => "country_code"
  | StateCode => "state_code"
  | Cases => "cases"
  | Coordinates => "coordinates"
  | CountryCases => "country_cases"
  | FCode => "code"
  | FName => "name"
  | Weight => "weight"
  | Type_ => "type"
  | FCountryName => "country_name"
  | MainAirportName => "main_airport_name"
  end.

Definition field_type (f : field) : gotype :=
  match f with
  | IndexStrings => TStrings
  | CountryCode | FCode | FName | Type_ | FCountryName => TString
  | StateCode | CountryCases | MainAirportName => TInterface
  | Cases => TMapString
  | Coordinates => TMapFloat64
  | Weight => TInt64
  end.

(** The fields in declaration order. *)
Definition fields : list field :=
  [IndexStrings; CountryCode; StateCode; Cases; Coordinates; CountryCases;
   FCode; FName; Weight; Type_; FCountryName; MainAirportName].

(** Case folding of an object key as [encoding/json] compares it with an
    ASCII field name: ASCII letters fold to lower case, and the two
    non-ASCII letters that fold to ASCII ones, U+017F (bytes C5 BF) to [s]
    and U+212A (bytes E2 84 AA) to [k]. *)
Definition lower (c : ascii) : ascii :=
  let n := N_of_ascii c in
  if ((65 <=? n) && (n <=? 90))%N then ascii_of_N (n + 32) else c.

Definition byte_is (c : ascii) (n : N) : bool := (N_of_ascii c =? n)%N.

Fixpoint foldKey (s : string) : string :=
  match s with
  | EmptyString => EmptyString
  | String c r =>
      match r with
      | String c2 r2 =>
          if byte_is c 197 && byte_is c2 191 then String "s"%char (foldKey r2)
          else
            match r2 with
            | String c3 r3 =>
                if byte_is c 226 && byte_is c2 132 && byte_is c3 170
                then String "k"%char (foldKey r3)
                else String (lower c) (foldKey r)
            | EmptyString => String (lower c) (foldKey r)
            end
      | EmptyString => String (lower c) EmptyString
      end
  end.

Definition equalFold (name key : string) : bool :=
  bool_decide (name = foldKey key).

(** The field an object key is stored into: an exact match of the tag
    first, else the first field whose tag matches under case folding;
    [None] for an unknown key, whose value is skipped. *)
Definition field_of_key (key : string) : option field :=
  match find (λ f, bool_decide (tag f = key)) fields with
  | Some f => Some f
  | None => find (λ f, equalFold (tag f) key) fields
  end.

(** Whether a JSON value can be stored into a field of the given type
    without an [UnmarshalTypeError]; [null] is accepted by every type. *)
Definition accepts_string (v : json) : bool :=
  match v with JString _ | JNull => true | _ => false end.

Definition accepts_float64 (v : json) : bool :=
  match v with JNumber n => fits_float64 n | JNull => true | _ => false end.

Definition accepts (t : gotype) (v : json) : bool :=
  match t, v with
  | _, JNull => true
  | TString, _ => accepts_string v
  | TInt64, JNumber n => fits_int64 n
  | TStrings, JArray elems => forallb accepts_string elems
  | TMapString, JObject members => forallb (λ kv, accepts_string kv.2) members
  | TMapFloat64, JObject members => forallb (λ kv, accepts_float64 kv.2) members
  | TInterface, _ => numbers_fit v
  | _, _ => false
  end.

(** Storing an accepted value; [null] leaves a string field as it is. *)
Definition store (f : field) (v : json) (it : inputItem) : inputItem :=
  match f, v with
  | FCode, JString s => {| Code := s; Name := Name it; CountryName := CountryName it |}
  | FName, JString s => {| Code := Code it; Name := s; CountryName := CountryName it |}
  | FCountryName, JString s => {| Code := Code it; Name := Name it; CountryName := s |}
  | _, _ => it
  end.

(** Decoding the members of an object into a struct, in order: a later
    duplicate of a key overwrites an earlier one. A type error makes
    [Unmarshal] return an error ([None]). *)
Fixpoint object (members : list (string * json)) (it : inputItem)
  : option inputItem :=
  match members with
  | [] => Some it
  | (key, v) :: rest =>
      match field_of_key key with
      | None => object rest it
      | Some f =>
          if accepts (field_type f) v then object rest (store f v it) else None
      end
  end.

Definition zeroItem : inputItem := {| Code := EmptyString; Name := EmptyString; CountryName := EmptyString |}.

(** One element of the array into a [*inputItem]: [null] gives the nil
    pointer, an object a fresh struct. *)
Definition element (j : json) : option (option inputItem) :=
  match j with
  | JNull => Some None
  | JObject members => Some <$> object members zeroItem
  | _ => None
  end.

(** [json.Unmarshal] into the [inputResp] that [handler] passes, which is
    empty before the call; a top-level [null] leaves it empty. *)
Definition unmarshal (j : json) : error + inputResp :=
  match j with
  | JNull => inr []
  | JArray elems =>
      match mapM element elems with
      | Some input => inr input
      | None => inl ErrDecode
      end
  | _ => inl ErrDecode
  end.

(** *** What the program reads of an object

    The three fields the core reads, stated on the members directly: the
    string of the last member stored into the field, the empty string
    when there is none. *)
Definition same_field (f g : field) : bool :=
  bool_decide (tag f = tag g).

Fixpoint last_string (f : field) (members : list (string * json)) (current : string)
  : string :=
  match members with
  | [] => current
  | (key, v) :: rest =>
      last_string f rest
        match field_of_key key, v with
        | Some g, JString s => if same_field f g then s else current
        | _, _ => current
        end
  end.

Definition view (members : list (string * json)) : inputItem :=
  {| Code := last_string FCode members EmptyString;
     Name := last_string FName members EmptyString;
     CountryName := last_string FCountryName members EmptyString |}.

(** The members the schema tolerance is about: an unknown (extra) key with
    any value; a field declared [interface{}] with a value of any shape
    whose numbers are in the range of [float64]; any other declared field
    with a value its Go type takes, which for the three fields the core
    reads is a string or [null]. *)
Definition tolerated (kv : string * json) : bool :=
  match field_of_key kv.1 with
  | None => true
  | Some f =>
      match field_type f with
      | TInterface => numbers_fit kv.2
      | t => accepts t kv.2
      end
  end.

End Json.

(** ** The upstream service, as the program sees it *)

(** What one GET to the target service comes to. *)
Inductive payload :=
  | Unreadable                      (* ioutil.ReadAll fails *)
  | Malformed                       (* the body is not JSON text *)
  | Document (j : Json.json).       (* the body is this JSON document *)

Inductive reply :=
  | BadURL                          (* http.NewRequest rejects the URL *)
  | NoResponse                      (* client.Do fails *)
  | Response (status : Z) (body : payload).

(** The body of [request], common to the three variants, from
    [http.NewRequest] to [json.Unmarshal]. [done] says whether the context
    bound to the request is done when the call would complete: [client.Do]
    then fails with the context's error. *)
Definition fetch (done : bool) (r : reply) : error + inputResp :=
  match r with
  | BadURL => inl ErrNewRequest
  | NoResponse => inl ErrTransport
  | Response status body =>
      if done then inl ErrTransport
      else if negb (status =? StatusOK) then inl (ErrStatus status)
      else match body with
           | Unreadable => inl ErrRead
           | Malformed => inl ErrDecode
           | Document j => Json.unmarshal j
           end
  end.

(** [json.Marshal] of an [outputResp] is library code and stays a parameter
    of the development; this instance, used for examples, is its output on
    items whose strings need no escaping. *)
Definition plainItem (p : option outputItem) : string :=
  match p with
  | None => "null"
  | Some o =>
      "{" +:+ quoted "slug" +:+ ":" +:+ quoted (Slug o) +:+ ","
          +:+ quoted "subtitle" +:+ ":" +:+ quoted (Subtitle o) +:+ ","
          +:+ quoted "title" +:+ ":" +:+ quoted (Title o) +:+ "}"
  end.

Fixpoint plainItems (l : outputResp) : string :=
  match l with
  | [] => EmptyString
  | [p] => plainItem p
  | p :: rest => plainItem p +:+ "," +:+ plainItems rest
  end.

Definition plainMarshal (o : outputResp) : error + string :=
  inr ("[" +:+ plainItems o +:+ "]").

(** ** The plain variant *)
Module Plain.
Section WithMarshal.

Variable jsonMarshal : outputResp → error + string.

Record config := {
  RequestTimeout : Z;   (* uint64, in milliseconds *)
  Addr : string;
  TargetAddr : string
}.

Record server := {
  reqTimeout : Z;       (* time.Duration *)
  targetAddress : string
}.

Definition newConfig : config :=
  {| Addr := ":80"; RequestTimeout := 3000;
     TargetAddr := "https://places.aviasales.ru" |}.

Definition newServer (cfg : config) : server :=
  {| reqTimeout := mul64 (int64 (RequestTimeout cfg)) Millisecond;
     targetAddress := TargetAddr cfg |}.

(** [request(url, timeout, &input)]: the context is created inside, with
    [timeout]; the exchange with the upstream completes after [latency]
    nanoseconds. A timeout that is not positive gives a context that is
    done at once. Otherwise the timer of the context fires no earlier than
    the deadline, and how soon after is up to the runtime: [fired] says
    whether it has fired when the exchange completes, which it can only
    have from the deadline on. *)
Definition request (timeout latency : Z) (fired : bool) (r : reply)
  : error + inputResp :=
  fetch ((timeout <=? 0) || (fired && (timeout <=? latency))) r.

(** [handlerFunc]; [None] is a panic of the handler goroutine. *)
Definition handlerFunc (s : server) (latency : Z) (fired : bool) (r : reply)
  : option writer :=
  match request (mul64 (reqTimeout s) Millisecond) latency fired r with
  | inl _ => Some [WriteHeader StatusGatewayTimeout]
  | inr input =>
      output ← transform input;
      match jsonMarshal output with
      | inl _ => Some [WriteHeader StatusInternalServerError]
      | inr result => Some [HeaderAdd contentType applicationJSON; Write result]
      end
  end.

End WithMarshal.
End Plain.

(** ** The variant with logging, [adviser.go] *)
Module Logged.
Section WithMarshal.

Variable jsonMarshal : outputResp → error + string.

Record config := {
  Addr : string;
  LogLevel : string;
  RequestTimeout : Z;   (* uint64, in milliseconds *)
  TargetAddr : string
}.

Record server := {
  debug : bool;
  reqTimeout : Z;       (* time.Duration *)
  targetAddress : string
}.

Definition newConfig : config :=
  {| Addr := ":80"; LogLevel := "info"; RequestTimeout := 3000;
     TargetAddr := "https://places.aviasales.ru" |}.

Definition newServer (cfg : config) : server :=
  {| debug := bool_decide (LogLevel cfg = "debug") || bool_decide (LogLevel cfg = "DEBUG");
     reqTimeout := mul64 (int64 (RequestTimeout cfg)) Millisecond;
     targetAddress := TargetAddr cfg |}.

(** [request], as in the plain variant: [fired] says whether the timer of
    the context has fired when the exchange completes, which it can only
    have from the deadline on. *)
Definition request (timeout latency : Z) (fired : bool) (r : reply)
  : error + inputResp :=
  fetch ((timeout <=? 0) || (fired && (timeout <=? latency))) r.

(** [handlerFunc]; [None] is a panic of the handler goroutine. *)
Definition handlerFunc (s : server) (latency : Z) (fired : bool) (r : reply)
  : option writer :=
  let w := [HeaderAdd contentType applicationJSON] in
  match request (mul64 (reqTimeout s) Millisecond) latency fired r with
  | inl _ => Some (w ++ [WriteHeader StatusInternalServerError; Write internalErr])
  | inr input =>
      output ← transform input;
      match jsonMarshal output with
      | inl _ => Some (w ++ [WriteHeader StatusInternalServerError])
      | inr result => Some (w ++ [Write result])
      end
  end.

End WithMarshal.
End Logged.

(** ** The LRU cache

    [github.com/hashicorp/golang-lru] is library code; this is its contract
    for [New], [Get], [Add] and [Peek]: the entries are kept most recently
    used first, and each call is atomic (the library locks). *)
Module Lru.
Section WithValue.

Context {V : Type}.

Record t := mk { size : nat; items : list (string * V) }.

(** [lru.New(size)] fails unless the size is positive. *)
Definition New (n : Z) : option t :=
  if n <=? 0 then None else Some {| size := Z.to_nat n; items := [] |}.

Definition lookup (key : string) (l : list (string * V)) : option V :=
  snd <$> find (λ kv, bool_decide (kv.1 = key)) l.

Definition remove (key : string) (l : list (string * V)) : list (string * V) :=
  filter (λ kv, kv.1 ≠ key) l.

(** [Peek]: the value of a key, recency untouched. *)
Definition Peek (key : string) (c : t) : option V := lookup key (items c).

(** [Get]: the value of a key, which becomes the most recently used. *)
Definition Get (key : string) (c : t) : option V * t :=
  match lookup key (items c) with
  | Some v => (Some v, {| size := size c; items := (key, v) :: remove key (items c) |})
  | None => (None, c)
  end.

(** [Add]: a present key gets the new value and becomes the most recently
    used; a new key is put in front, and the oldest entry is evicted when
    the size is exceeded. *)
Definition Add (key : string) (v : V) (c : t) : t :=
  match lookup key (items c) with
  | Some _ => {| size := size c; items := (key, v) :: remove key (items c) |}
  | None =>
      let l := (key, v) :: items c in
      {| size := size c;
         items := if (size c <? length l)%nat then removelast l else l |}
  end.

End WithValue.
Global Arguments t : clear implicits.
End Lru.

(** ** The variant with the cache *)

(** The dynamic type of an [interface{}] value held by the cache: [push]
    takes [data interface{}], [pullAndResponse] asserts [outputResp]. *)
Inductive any :=
  | AnyOutputResp (o : outputResp)
  | AnyInputResp (i : inputResp)
  | AnyError (e : error)
  | AnyNil.

Module Cached.
Section WithMarshal.

Variable jsonMarshal : outputResp → error + string.

Record config := {
  Addr : string;
  CacheSize : Z;
  LogLevel : string;
  RequestTimeout : Z;   (* uint64, in milliseconds *)
  TargetAddr : string
}.

Record server := {
  debug : bool;
  reqTimeout : Z;       (* time.Duration *)
  targetAddress : string
}.

Definition newConfig : config :=
  {| Addr := ":80"; CacheSize := 1000; LogLevel := "info";
     RequestTimeout := 3000; TargetAddr := "https://places.aviasales.ru" |}.

Definition newServer (cfg : config) : server :=
  {| debug := bool_decide (LogLevel cfg = "debug") || bool_decide (LogLevel cfg = "DEBUG");
     reqTimeout := mul64 (int64 (RequestTimeout cfg)) Millisecond;
     targetAddress := TargetAddr cfg |}.

(** The duration [handlerFunc] gives to [context.WithTimeout]:
    [time.Duration(s.reqTimeout)*time.Millisecond]. *)
Definition ctxTimeout (s : server) : Z := mul64 (reqTimeout s) Millisecond.

(** [request(ctx, logger, url, timeout, &input)]: the request is bound to
    [ctx]; the [timeout] argument is not used. *)
Definition request (ctx_is_done : bool) (r : reply) : error + inputResp :=
  fetch ctx_is_done r.

(** [response]: nothing is written when [json.Marshal] fails. *)
Definition response (w : writer) (data : outputResp) : writer :=
  match jsonMarshal data with
  | inl _ => w
  | inr result => w ++ [Write result]
  end.

(** [pullAndResponse]: the result, the writer and the cache after it. *)
Definition pullAndResponse (c : Lru.t any) (key : string) (w : writer)
  : bool * writer * Lru.t any :=
  let '(val, c') := Lru.Get key c in
  match val with
  | None => (false, w, c')
  | Some (AnyOutputResp data) => (true, response w data, c')
  | Some _ => (false, w, c')
  end.

(** [push] *)
Definition push (c : Lru.t any) (url : string) (data : any) : Lru.t any :=
  Lru.Add url data c.

(** *** The goroutines of one request

    [handlerFunc] runs in the goroutine net/http starts for the request,
    [handler] in the goroutine started by [go s.handler(...)]. Both hold
    the same [http.ResponseWriter] and the same context. *)

(** Where [handlerFunc] stands. *)
Inductive opc :=
  | OStart          (* the context is made; before addJSONContentType *)
  | OSpawned        (* after [go s.handler(...)], before the select *)
  | OParked         (* blocked in the select *)
  | OTimedOut       (* case <-ctx.Done() taken, before WriteHeader *)
  | OTimedOutHdr    (* after WriteHeader(504), before Write *)
  | OSignalled      (* case <-done taken *)
  | OReturned.      (* returned; the deferred cancel() has run *)

(** Where [handler] stands. *)
Inductive wpc :=
  | WFetching                        (* inside s.request *)
  | WFailed (e : error)              (* request returned an error *)
  | WGot (input : inputResp)         (* request returned nil *)
  | WOut (output : outputResp)       (* the loop is over *)
  | WPushed (output : outputResp)    (* after s.push *)
  | WSignal                          (* body over, the deferred send is next *)
  | WDone
  | WPanicked.                       (* the loop has panicked, the deferred
                                        send has run, the process is about
                                        to end *)

Record req := mkReq {
  url : string;            (* r.URL.String(), the cache key *)
  started : Z;             (* when the context was made *)
  expired : bool;          (* the deadline timer of the context has fired *)
  cancelled : bool;        (* cancel() was called, or the parent was cancelled *)
  orch : opc;
  work : option wpc;       (* None: no goroutine was started *)
  w : writer
}.

(** [ctx.Done()] is closed. *)
Definition ctx_done (r : req) : bool := expired r || cancelled r.

Definition set_orch (o : opc) (r : req) : req :=
  mkReq (url r) (started r) (expired r) (cancelled r) o (work r) (w r).
Definition set_work (p : option wpc) (r : req) : req :=
  mkReq (url r) (started r) (expired r) (cancelled r) (orch r) p (w r).
Definition set_w (x : writer) (r : req) : req :=
  mkReq (url r) (started r) (expired r) (cancelled r) (orch r) (work r) x.
Definition set_expired (r : req) : req :=
  mkReq (url r) (started r) true (cancelled r) (orch r) (work r) (w r).
Definition set_cancelled (r : req) : req :=
  mkReq (url r) (started r) (expired r) true (orch r) (work r) (w r).

(** Closing [ctx.Done()] wakes a [handlerFunc] blocked in the select. *)
Definition wake (r : req) : req :=
  match orch r with
  | OParked => set_orch OTimedOut r
  | _ => r
  end.

(** The process: the clock (nanoseconds), the shared cache, the requests
    in order of arrival, and two observers: the outcome of every completed
    call of [request] with the key it was made for, and whether an
    unrecovered panic has ended the process. *)
Record sys := mkSys {
  clock : Z;
  cache : Lru.t any;
  reqs : list req;
  calls : list (string * (error + inputResp));
  crashed : bool
}.

Definition set_clock (t : Z) (st : sys) : sys :=
  mkSys t (cache st) (reqs st) (calls st) (crashed st).
Definition set_cache (c : Lru.t any) (st : sys) : sys :=
  mkSys (clock st) c (reqs st) (calls st) (crashed st).
Definition set_reqs (l : list req) (st : sys) : sys :=
  mkSys (clock st) (cache st) l (calls st) (crashed st).
Definition set_calls (l : list (string * (error + inputResp))) (st : sys) : sys :=
  mkSys (clock st) (cache st) (reqs st) l (crashed st).
Definition set_crashed (st : sys) : sys :=
  mkSys (clock st) (cache st) (reqs st) (calls st) true.

Definition set_req (i : nat) (r : req) (st : sys) : sys :=
  set_reqs (<[i := r]> (reqs st)) st.

(** What can happen next. *)
Inductive action :=
  | Arrive (u : string)           (* net/http calls handlerFunc for a new request *)
  | Tick (d : Z)                  (* [d] nanoseconds pass *)
  | Fire (i : nat)                (* the deadline timer of request [i] fires *)
  | Hangup (i : nat)              (* the client of request [i] goes away *)
  | Orch (i : nat)                (* handlerFunc of request [i] moves on *)
  | Return (i : nat) (r : reply)  (* s.request of request [i] completes *)
  | Work (i : nat).               (* handler of request [i] moves on *)

(** [context.WithTimeout(r.Context(), ...)] at the head of [handlerFunc]:
    a duration that is not positive gives a context that is done at once. *)
Definition arrive (s : server) (u : string) (st : sys) : sys :=
  set_reqs (reqs st ++ [mkReq u (clock st) (ctxTimeout s <=? 0) false OStart None []]) st.

(** The timer fires no earlier than the deadline, and not once the
    context is done. *)
Definition fire (s : server) (i : nat) (st : sys) : option sys :=
  r ← reqs st !! i;
  if ctx_done r then None
  else if started r + ctxTimeout s <=? clock st
       then Some (set_req i (wake (set_expired r)) st)
       else None.

(** The context of the incoming request is cancelled when its client
    goes away. *)
Definition hangup (i : nat) (st : sys) : option sys :=
  r ← reqs st !! i;
  match orch r with
  | OReturned => None
  | _ => if cancelled r then None else Some (set_req i (wake (set_cancelled r)) st)
  end.

(** One move of [handlerFunc]. *)
Definition handlerFunc_step (i : nat) (st : sys) : option sys :=
  r ← reqs st !! i;
  match orch r with
  | OStart =>
      let w1 := w r ++ [HeaderAdd contentType applicationJSON] in
      let '(hit, w2, c) := pullAndResponse (cache st) (url r) w1 in
      if hit
      then Some (set_cache c (set_req i (set_orch OReturned (set_cancelled (set_w w2 r))) st))
      else Some (set_cache c (set_req i (set_orch OSpawned (set_work (Some WFetching) (set_w w2 r))) st))
  | OSpawned =>
      Some (set_req i (set_orch (if ctx_done r then OTimedOut else OParked) r) st)
  | OParked => None
  | OTimedOut =>
      Some (set_req i (set_orch OTimedOutHdr (set_w (w r ++ [WriteHeader StatusGatewayTimeout]) r)) st)
  | OTimedOutHdr =>
      Some (set_req i (set_orch OReturned (set_cancelled (set_w (w r ++ [Write internalErr]) r))) st)
  | OSignalled =>
      Some (set_req i (set_orch OReturned (set_cancelled r)) st)
  | OReturned => None
  end.

(** [s.request] completes in [handler]. *)
Definition handler_request (i : nat) (rep : reply) (st : sys) : option sys :=
  r ← reqs st !! i;
  match work r with
  | Some WFetching =>
      let res := request (ctx_done r) rep in
      let p := match res with inl e => WFailed e | inr input => WGot input end in
      Some (set_calls (calls st ++ [(url r, res)]) (set_req i (set_work (Some p) r) st))
  | _ => None
  end.

(** One move of [handler] after [s.request]. The deferred send on [done]
    does not block: it goes through only if [handlerFunc] is blocked in
    the select. A nil dereference in the loop is a panic outside of any
    recover: the deferred send runs as the panic unwinds [handler], then
    the process ends; until it has ended the other goroutines go on. *)
Definition handler_step (i : nat) (st : sys) : option sys :=
  r ← reqs st !! i;
  p ← work r;
  match p with
  | WFetching => None
  | WFailed _ =>
      Some (set_req i (set_work (Some WSignal) (set_w (w r ++ [Write internalErr]) r)) st)
  | WGot input =>
      match transform input with
      | None =>
          let r' := match orch r with
                    | OParked => set_orch OSignalled r
                    | _ => r
                    end in
          Some (set_req i (set_work (Some WPanicked) r') st)
      | Some output => Some (set_req i (set_work (Some (WOut output)) r) st)
      end
  | WOut output =>
      Some (set_cache (push (cache st) (url r) (AnyOutputResp output))
              (set_req i (set_work (Some (WPushed output)) r) st))
  | WPushed output =>
      Some (set_req i (set_work (Some WSignal) (set_w (response (w r) output) r)) st)
  | WSignal =>
      let r' := match orch r with
                | OParked => set_orch OSignalled r
                | _ => r
                end in
      Some (set_req i (set_work (Some WDone) r') st)
  | WDone => None
  | WPanicked => Some (set_crashed st)
  end.

Definition step (s : server) (a : action) (st : sys) : option sys :=
  if crashed st then None
  else match a with
       | Arrive u => Some (arrive s u st)
       | Tick d => if 0 <? d then Some (set_clock (clock st + d) st) else None
       | Fire i => fire s i st
       | Hangup i => hangup i st
       | Orch i => handlerFunc_step i st
       | Return i rep => handler_request i rep st
       | Work i => handler_step i st
       end.

(** A schedule, run from a state; [None] when some action is not enabled. *)
Fixpoint run (s : server) (sched : list action) (st : sys) : option sys :=
  match sched with
  | [] => Some st
  | a :: rest => st' ← step s a st; run s rest st'
  end.

(** [main]: the cache is made with [cfg.CacheSize], the server with
    [newServer]; [None] when [lru.New] fails ([logger.Fatal]). *)
Definition boot (cfg : config) : option sys :=
  c ← Lru.New (CacheSize cfg);
  Some (mkSys 0 c [] [] false).

End WithMarshal.

(** *** Predicates on states *)

(** [output] was made from the result of a successful call of [request]
    for [key]. *)
Definition fetched (st : sys) (key : string) (output : outputResp) : Prop :=
  ∃ input : inputResp, (key, inr input) ∈ calls st ∧ transform input = Some output.

(** Every entry of the cache holds such an [outputResp] for its key. *)
Definition cache_ok (st : sys) : Prop :=
  ∀ key v, (key, v) ∈ Lru.items (cache st) →
    ∃ output, v = AnyOutputResp output ∧ fetched st key output.

(** What a worker holds comes from a successful call for its key. *)
Definition worker_ok (st : sys) (r : req) : Prop :=
  match work r with
  | Some (WGot input) => (url r, inr input) ∈ calls st
  | Some (WOut output) | Some (WPushed output) => fetched st (url r) output
  | _ => True
  end.

Definition inv (st : sys) : Prop :=
  cache_ok st ∧ ∀ i r, reqs st !! i = Some r → worker_ok st r.

(** A worker that has no [push] ahead of it: its call of [request] has
    failed, or its body is over. *)
Definition settled (p : option wpc) : bool :=
  match p with
  | Some (WFailed _) | Some WSignal | Some WDone => true
  | _ => false
  end.

(** The actions of request [i] itself after its call of [request] has
    completed, and the passing of time. *)
Definition own (i : nat) (a : action) : bool :=
  match a with
  | Orch j | Work j | Fire j | Hangup j => bool_decide (j = i)
  | Tick _ => true
  | Arrive _ | Return _ _ => false
  end.

End Cached.

(** ** Sample data *)

Definition placesURL : string := "/v2/places.json?term=Moscow".

Definition moscowDoc : Json.json :=
  Json.JArray
    [Json.JObject [("code", Json.JString "MOW");
                   ("name", Json.JString "Moscow");
                   ("country_name", Json.JString "Russia")]].

Definition moscowReply : reply := Response StatusOK (Document moscowDoc).

Definition moscowInput : inputResp :=
  [Some {| Code := "MOW"; Name := "Moscow"; CountryName := "Russia" |}].

Definition moscowOutput : outputResp :=
  [Some {| Slug := "MOW"; Subtitle := "Russia"; Title := "Moscow" |}].

(** The server and the state [main] starts from with the default
    configuration. *)
Definition defaultServer : Cached.server := Cached.newServer Cached.newConfig.

Definition coldStart : Cached.sys :=
  Cached.mkSys 0 {| Lru.size := 1000; Lru.items := [] |} [] [] false.

(** A request misses the cache and [handlerFunc] blocks in the select. *)
Definition missAndPark : list Cached.action :=
  [Cached.Arrive placesURL; Cached.Orch 0; Cached.Orch 0].

(** The deadline of the default configuration passes, the timer fires,
    [handlerFunc] writes the timeout response and returns. *)
Definition deadlinePath : list Cached.action :=
  [Cached.Tick 3000000000000000; Cached.Fire 0; Cached.Orch 0; Cached.Orch 0].

(** The state after the two: the request is answered with the timeout
    response while its worker is still inside [s.request]. *)
Definition answeredByDeadline : Cached.sys :=
  Eval vm_compute in
    default coldStart
      (Cached.run plainMarshal defaultServer (missAndPark ++ deadlinePath) coldStart).

(** Its request. *)
Definition timedOutRequest : Cached.req :=
  Cached.mkReq placesURL 0 true true Cached.OReturned (Some Cached.WFetching)
    [HeaderAdd contentType applicationJSON;
     WriteHeader StatusGatewayTimeout; Write internalErr].

(** [handler] after a failed [request]: the error body, the deferred send. *)
Definition failurePath : list Cached.action := [Cached.Work 0; Cached.Work 0].

(** The state once the worker of [answeredByDeadline] is through, the
    upstream having answered with [moscowReply]. *)
Definition afterCancelledFetch : Cached.sys :=
  Eval vm_compute in
    default coldStart
      (Cached.run plainMarshal defaultServer
         (Cached.Return 0 moscowReply :: failurePath) answeredByDeadline).

(** [handler] after a successful [request]: the loop, [push], [response],
    the deferred send. *)
Definition successPath : list Cached.action :=
  [Cached.Work 0; Cached.Work 0; Cached.Work 0; Cached.Work 0].

(** The state after a first request has been served from the upstream,
    and the same with a second request for the same key just arrived. *)
Definition servedOnce : Cached.sys :=
  Eval vm_compute in
    default coldStart
      (Cached.run plainMarshal defaultServer
         (missAndPark ++ Cached.Return 0 moscowReply :: successPath ++ [Cached.Orch 0])
         coldStart).

Definition secondArrives : Cached.sys :=
  Eval vm_compute in
    default coldStart (Cached.run plainMarshal defaultServer [Cached.Arrive placesURL] servedOnce).

Definition freshRequest : Cached.req :=
  Cached.mkReq placesURL 0 false false Cached.OStart None [].

(** A cache that holds a raw input for the key of an arriving request. *)
Definition foreignEntry : Cached.sys :=
  Cached.mkSys 0 {| Lru.size := 1000; Lru.items := [(placesURL, AnyInputResp moscowInput)] |}
    [freshRequest] [] false.

(** Objects with unknown members of every shape, nested values in the
    fields declared [interface{}], a key in other case, and absent fields. *)
Definition tolerantObjects : list (list (string * Json.json)) :=
  [ [("code", Json.JString "MOW");
     ("iata_type", Json.JArray [Json.JNumber (Json.Dec 1 999); Json.JObject []]);
     ("state_code", Json.JObject [("region", Json.JNumber (Json.Int 77))]);
     ("Name", Json.JString "Moscow");
     ("country_name", Json.JString "Russia");
     ("country_cases", Json.JNull);
     ("weight", Json.JNumber (Json.Int 1006321));
     ("coordinates", Json.JObject [("lon", Json.JNumber (Json.Dec 37617633 (-6)))]);
     ("CODE", Json.JNull)];
    [];
    [("main_airport_name", Json.JBool true); ("name", Json.JString EmptyString)] ].

(** ** Further predicates on the states of the cached variant *)

(** The worker of a request has come back from [s.request]. *)
Definition called (r : Cached.req) : bool :=
  match Cached.work r with
  | None | Some Cached.WFetching => false
  | Some _ => true
  end.

(** How many bodies and statuses [handlerFunc] and [handler] can have
    written, by where they stand. *)
Definition orch_bodies (o : Cached.opc) : nat :=
  match o with Cached.OReturned => 1 | _ => 0 end.

Definition orch_statuses (o : Cached.opc) : nat :=
  match o with Cached.OTimedOutHdr | Cached.OReturned => 1 | _ => 0 end.

Definition work_bodies (p : option Cached.wpc) : nat :=
  match p with Some Cached.WSignal | Some Cached.WDone => 1 | _ => 0 end.

Definition only_504 (c : wcall) : Prop :=
  match c with WriteHeader code => code = StatusGatewayTimeout | _ => True end.

Definition writer_ok (r : Cached.req) : Prop :=
  match Cached.orch r with
  | Cached.OStart => Cached.w r = [] ∧ Cached.work r = None
  | o =>
      ∃ rest, Cached.w r = HeaderAdd contentType applicationJSON :: rest
        ∧ (body_writes rest ≤ orch_bodies o + work_bodies (Cached.work r))%nat
        ∧ (status_writes rest ≤ orch_statuses o)%nat
        ∧ Forall only_504 rest
  end.

(** [handlerFunc] defers [cancel()]: once it has returned, the context of
    the request is cancelled. *)
Definition returned_ok (r : Cached.req) : Prop :=
  Cached.orch r = Cached.OReturned → Cached.cancelled r = true.

(** The bound of the cache holds and no key is there twice. *)
Definition lru_ok {V : Type} (c : Lru.t V) : Prop :=
  (length (Lru.items c) ≤ Lru.size c)%nat ∧ NoDup (Lru.items c).*1.

(** The record of calls has one entry for each worker that has come back
    from [s.request]. *)
Definition calls_ok (st : Cached.sys) : Prop :=
  length (Cached.calls st) = length (filter (λ r, called r = true) (Cached.reqs st))
  ∧ Forall writer_ok (Cached.reqs st).

(** ** More sample data *)

(** An upstream body with a [null] element. *)
Definition nullReply : reply :=
  Response StatusOK (Document (Json.JArray [Json.JNull])).

(** A request that has missed the cache, its [handlerFunc] blocked in the
    select and its worker inside [s.request]. *)
Definition parkedOnMiss : Cached.sys :=
  Eval vm_compute in
    default coldStart (Cached.run plainMarshal defaultServer missAndPark coldStart).

Definition parkedRequest : Cached.req :=
  Cached.mkReq placesURL 0 false false Cached.OParked (Some Cached.WFetching)
    [HeaderAdd contentType applicationJSON].

(** The same once the upstream has answered with [nullReply]. *)
Definition gotNull : Cached.sys :=
  Eval vm_compute in
    default coldStart
      (Cached.run plainMarshal defaultServer [Cached.Return 0 nullReply] parkedOnMiss).

Definition gotNullRequest : Cached.req :=
  Cached.mkReq placesURL 0 false false Cached.OParked (Some (Cached.WGot [None]))
    [HeaderAdd contentType applicationJSON].

(** A configuration whose timeout, ten million milliseconds, no longer
    fits the doubled conversion, and one with room for a single entry. *)
Definition overlongConfig : Cached.config :=
  {| Cached.Addr := ":80"; Cached.CacheSize := 1000; Cached.LogLevel := "info";
     Cached.RequestTimeout := 10000000;
     Cached.TargetAddr := "https://places.aviasales.ru" |}.

Definition tinyConfig : Cached.config :=
  {| Cached.Addr := ":80"; Cached.CacheSize := 1; Cached.LogLevel := "info";
     Cached.RequestTimeout := 3000;
     Cached.TargetAddr := "https://places.aviasales.ru" |}.

Definition tinyStart : Cached.sys :=
  Cached.mkSys 0 {| Lru.size := 1; Lru.items := [] |} [] [] false.

(** Two requests for different keys, each served from the upstream. *)
Definition otherURL : string := "/v2/places.json?term=Paris".

Definition twoMisses : list Cached.action :=
  [Cached.Arrive placesURL; Cached.Orch 0; Cached.Orch 0;
   Cached.Return 0 moscowReply; Cached.Work 0; Cached.Work 0; Cached.Work 0;
   Cached.Work 0; Cached.Orch 0;
   Cached.Arrive otherURL; Cached.Orch 1; Cached.Orch 1;
   Cached.Return 1 moscowReply; Cached.Work 1; Cached.Work 1; Cached.Work 1;
   Cached.Work 1; Cached.Orch 1].

Definition afterTwoMisses : Cached.sys :=
  Eval vm_compute in
    default tinyStart
      (Cached.run plainMarshal (Cached.newServer tinyConfig) twoMisses tinyStart).

(** The request of the run of [second_write_after_deadline], at its end. *)
Definition twiceWritten : Cached.req :=
  Cached.mkReq placesURL 0 true true Cached.OReturned (Some Cached.WDone)
    [HeaderAdd contentType applicationJSON;
     WriteHeader StatusGatewayTimeout; Write internalErr; Write internalErr].

(** The state at the end of that run. *)
Definition afterSecondWrite : Cached.sys :=
  Eval vm_compute in
    default coldStart
      (Cached.run plainMarshal defaultServer
         (missAndPark ++ deadlinePath ++ Cached.Return 0 moscowReply :: failurePath)
         coldStart).

(** The deadline timer of the parked request has fired. *)
Definition timerFired : Cached.sys :=
  Eval vm_compute in
    default coldStart
      (Cached.run plainMarshal defaultServer
         [Cached.Tick 3000000000000000; Cached.Fire 0] parkedOnMiss).

Definition wokenRequest : Cached.req :=
  Cached.mkReq placesURL 0 true false Cached.OTimedOut (Some Cached.WFetching)
    [HeaderAdd contentType applicationJSON].

(** The bodies [plainMarshal] gives for the sample outputs. *)
Definition moscowBody : string :=
  Eval vm_compute in
    match plainMarshal moscowOutput with inr b => b | inl _ => EmptyString end.

Definition tolerantBody : string :=
  Eval vm_compute in
    match plainMarshal ((λ members, Some (makeItem (Json.view members))) <$> tolerantObjects)
    with inr b => b | inl _ => EmptyString end.

(** Caches of size one and two. *)
Definition fullOfOne : Lru.t any :=
  {| Lru.size := 1; Lru.items := [(placesURL, AnyOutputResp moscowOutput)] |}.

Definition twoOfTwo : Lru.t any :=
  {| Lru.size := 2;
     Lru.items := [(otherURL, AnyOutputResp []); (placesURL, AnyOutputResp moscowOutput)] |}.

(** * Properties *)

(** ** The transformer *)

(** The loop invariant: after the first [n] iterations the first [n] slots
    hold the items made from the first [n] inputs, the rest is still nil. *)
Lemma transform_prefix (I : list inputItem) (n : nat) :
  (n ≤ length I)%nat →
  foldl (transform_iter (Some <$> I))
        (Some (replicate (length I) None)) (seq 0 n)
  = Some (((λ it, Some (makeItem it)) <$> take n I) ++ replicate (length I - n) None).
Proof.
  induction n as [|n IH]; intros Hn.
  - simpl. by rewrite Nat.sub_0_r.
  - rewrite seq_S, foldl_app, IH by lia. simpl.
    destruct (lookup_lt_is_Some_2 I n) as [it Hit]; [lia|].
    unfold transform_iter. simpl.
    assert ((Some <$> I) !! n = Some (Some it)) as Hl
      by (by rewrite list_lookup_fmap, Hit).
    rewrite Hl. simpl.
    rewrite (take_S_r _ _ _ Hit), fmap_app. simpl.
    rewrite insert_app_r_alt; rewrite length_fmap, length_take; [|lia].
    replace (n - n `min` length I)%nat with 0%nat by lia.
    replace (length I - n)%nat with (S (length I - S n)) by lia.
    simpl. by rewrite <- app_assoc.
Qed.

Lemma transform_total (I : list inputItem) :
  transform (Some <$> I) = Some ((λ it, Some (makeItem it)) <$> I).
Proof.
  unfold transform. rewrite length_fmap, transform_prefix by lia.
  by rewrite firstn_all, Nat.sub_diag, app_nil_r.
Qed.

(** A nil element makes the loop panic. *)
Lemma transform_nil_element (input : inputResp) (k : nat) :
  input !! k = Some None → transform input = None.
Proof.
  intros Hk. unfold transform.
  assert (Hlt : (k < length input)%nat) by (by eapply lookup_lt_Some).
  assert (Hstop : ∀ l, foldl (transform_iter input) None l = None)
    by (induction l; simpl; auto).
  generalize (Some (replicate (length input) (@None outputItem))). intros init.
  replace (length input) with (k + S (length input - S k))%nat by lia.
  rewrite seq_app, foldl_app. simpl.
  destruct (foldl _ _ (seq 0 k)) as [output|]; simpl.
  - rewrite Hk. simpl. apply Hstop.
  - apply Hstop.
Qed.

(** C6. For every input collection [I] the transformer returns a collection
    of the same length whose [k]-th item is made from the [k]-th item of [I]
    by slug = code, subtitle = country_name, title = name; nothing is
    filtered out, whatever the strings are, empty ones included. *)
Theorem transform_one_to_one (I : list inputItem) :
  ∃ O : outputResp,
    transform (Some <$> I) = Some O
    ∧ length O = length I
    ∧ ∀ (k : nat) (it : inputItem), I !! k = Some it →
        O !! k = Some (Some {| Slug := Code it;
                               Subtitle := CountryName it;
                               Title := Name it |}).
Proof.
  exists ((λ it, Some (makeItem it)) <$> I). split; [apply transform_total|].
  split; [by rewrite length_fmap|].
  intros k it Hk. by rewrite list_lookup_fmap, Hk.
Qed.

(** ** The deadline *)

Lemma int64_small (z : Z) :
  - 9223372036854775808 ≤ z < 9223372036854775808 → int64 z = z.
Proof.
  intros H. unfold int64.
  change (2 ^ 63) with 9223372036854775808.
  change (2 ^ 64) with 18446744073709551616.
  rewrite Z.mod_small; lia.
Qed.

(** Within the range where nothing wraps, a configured [RequestTimeout] of
    [n] gives [handlerFunc] a context of [n * 10^12] nanoseconds: the
    duration made by [newServer] is multiplied by [time.Millisecond] once
    more. *)
Lemma ctxTimeout_scaled (cfg : Cached.config) :
  0 ≤ Cached.RequestTimeout cfg ≤ 9223372 →
  Cached.ctxTimeout (Cached.newServer cfg)
  = Cached.RequestTimeout cfg * Millisecond * Millisecond.
Proof.
  intros H. unfold Cached.ctxTimeout, Cached.newServer, mul64, Millisecond.
  cbn [Cached.reqTimeout].
  rewrite (int64_small (Cached.RequestTimeout cfg)) by lia.
  rewrite (int64_small (Cached.RequestTimeout cfg * 1000000)) by lia.
  rewrite int64_small by lia. reflexivity.
Qed.

(** C5, evaluated at the default configuration: the deadline given to the
    context, which the select races against and the upstream call is bound
    to, is [3 * 10^15] nanoseconds (a million times 3000 ms), not the
    configured 3000 milliseconds; the variant without the cache hands the
    same duration to [request]. *)
Theorem default_deadline_not_milliseconds :
  Cached.ctxTimeout (Cached.newServer Cached.newConfig) = 3000000000000000
  ∧ Cached.ctxTimeout (Cached.newServer Cached.newConfig)
    = 1000000 * (Cached.RequestTimeout Cached.newConfig * Millisecond)
  ∧ Cached.ctxTimeout (Cached.newServer Cached.newConfig)
    ≠ Cached.RequestTimeout Cached.newConfig * Millisecond
  ∧ mul64 (Logged.reqTimeout (Logged.newServer Logged.newConfig)) Millisecond
    = 3000000000000000.
Proof. repeat split; try (vm_compute; congruence); reflexivity. Qed.

(** ** The writer *)

Lemma append_assoc (a b c : string) : (a +:+ b) +:+ c = a +:+ b +:+ c.
Proof.
  induction a as [|x a IH]; [done|].
  change (String x ((a +:+ b) +:+ c) = String x (a +:+ b +:+ c)). by rewrite IH.
Qed.

Lemma append_nil_r (a : string) : a +:+ EmptyString = a.
Proof.
  induction a as [|x a IH]; [done|].
  change (String x (a +:+ EmptyString) = String x a). by rewrite IH.
Qed.

Lemma status_of_app (l l' : writer) :
  status_of (l ++ l') = match status_of l with Some c => Some c | None => status_of l' end.
Proof. induction l as [|[] l IH]; simpl; auto. Qed.

Lemma body_of_app (l l' : writer) : body_of (l ++ l') = body_of l +:+ body_of l'.
Proof.
  induction l as [|[] l IH]; simpl; auto.
  by rewrite IH, append_assoc.
Qed.

(** ** The race between the worker and the deadline, on concrete runs *)

Section Runs.

Variable jsonMarshal : outputResp → error + string.

Import Cached.

(** The default configuration boots into [coldStart]. *)
Lemma boot_default : boot newConfig = Some coldStart.
Proof. reflexivity. Qed.

(** The timer of a request cannot fire before its deadline. *)
Lemma fire_not_before_deadline (s : server) (i : nat) (st : sys) (r : req) :
  reqs st !! i = Some r →
  clock st < started r + ctxTimeout s →
  fire s i st = None.
Proof.
  intros Hr Hlt. unfold fire. rewrite Hr. simpl.
  destruct (ctx_done r); [done|].
  destruct (Z.leb_spec (started r + ctxTimeout s) (clock st)); [lia|done].
Qed.

(** The branch [case <-ctx.Done()] itself: status 504 and the error body,
    when nothing was written before. *)
Lemma timeout_branch_writes_504 (s : server) (i : nat) (st : sys) (r : req) :
  crashed st = false →
  reqs st !! i = Some r →
  orch r = OTimedOut →
  status_of (w r) = None →
  body_of (w r) = EmptyString →
  ∃ st' r', run jsonMarshal s [Orch i; Orch i] st = Some st'
    ∧ reqs st' !! i = Some r'
    ∧ orch r' = OReturned
    ∧ status_of (w r') = Some StatusGatewayTimeout
    ∧ body_of (w r') = internalErr.
Proof.
  intros Hc Hr Ho Hs Hb.
  assert (Hi : (i < length (reqs st))%nat) by (by eapply lookup_lt_Some).
  set (r1 := set_orch OTimedOutHdr (set_w (w r ++ [WriteHeader StatusGatewayTimeout]) r)).
  set (r2 := set_orch OReturned (set_cancelled (set_w (w r1 ++ [Write internalErr]) r1))).
  assert (H1 : step jsonMarshal s (Orch i) st = Some (set_req i r1 st)).
  { unfold step, handlerFunc_step. rewrite Hc, Hr. cbn. by rewrite Ho. }
  assert (H2 : step jsonMarshal s (Orch i) (set_req i r1 st)
               = Some (set_req i r2 (set_req i r1 st))).
  { unfold step, handlerFunc_step. cbn. rewrite Hc.
    by rewrite list_lookup_insert_eq by done. }
  exists (set_req i r2 (set_req i r1 st)), r2.
  split; [cbn [run]; rewrite H1; cbn; by rewrite H2|].
  split; [cbn; by rewrite list_insert_insert_eq, list_lookup_insert_eq by done|].
  split; [done|]. cbn.
  rewrite !status_of_app, !body_of_app, Hs, Hb. cbn. split; [done|].
  by rewrite append_nil_r.
Qed.

(** C1, evaluated where the upstream outlasts the deadline: [handlerFunc]
    takes the deadline case, writes status 504 and the error body, and
    returns; [handler], which holds the same writer and whose request is
    cancelled with the context, then writes the error body again on the
    connection that has been answered. Two bodies are written, not one. *)
Theorem second_write_after_deadline :
  ∃ st1 r1 st2 r2,
    run jsonMarshal defaultServer (missAndPark ++ deadlinePath) coldStart = Some st1
    ∧ reqs st1 !! 0%nat = Some r1
    ∧ orch r1 = OReturned
    ∧ w r1 = [HeaderAdd contentType applicationJSON;
              WriteHeader StatusGatewayTimeout; Write internalErr]
    ∧ run jsonMarshal defaultServer (Return 0 moscowReply :: failurePath) st1 = Some st2
    ∧ reqs st2 !! 0%nat = Some r2
    ∧ w r2 = w r1 ++ [Write internalErr]
    ∧ body_writes (w r2) = 2%nat.
Proof.
  eexists _, _, _, _.
  split; [vm_compute; reflexivity|]. split; [reflexivity|].
  split; [reflexivity|]. split; [reflexivity|].
  split; [vm_compute; reflexivity|]. split; [reflexivity|].
  split; reflexivity.
Qed.

(** The send on [done] is lost when the worker is through before
    [handlerFunc] reaches the select: [handlerFunc] then blocks although the
    response is written, until the deadline makes it write a second one. *)
Lemma signal_lost_before_select :
  ∃ st r,
    run jsonMarshal defaultServer
        [Arrive placesURL; Orch 0; Return 0 NoResponse; Work 0; Work 0; Orch 0]
        coldStart = Some st
    ∧ reqs st !! 0%nat = Some r
    ∧ work r = Some WDone
    ∧ orch r = OParked
    ∧ w r = [HeaderAdd contentType applicationJSON; Write internalErr]
    ∧ step jsonMarshal defaultServer (Orch 0) st = None.
Proof.
  eexists _, _. split; [vm_compute; reflexivity|]. repeat split.
Qed.

(** C2, evaluated at the default configuration with an upstream that
    takes longer than the configured 3000 ms: one minute after the
    configured timeout [handlerFunc] is still blocked in the select, the
    timer of its context cannot fire, and nothing but the content type
    has reached the writer; when the upstream answers afterwards the
    client gets status 200 with the transformed body, not 504. And where
    the deadline of the context does fire before the send on [done], but
    after the worker's write, the status stays 200 and the error body
    comes second. *)
Theorem no_timeout_response_at_configured_timeout :
  (∃ st r,
    run jsonMarshal defaultServer
        (missAndPark ++ [Tick (3000 * Millisecond + 60 * Second)]) coldStart = Some st
    ∧ reqs st !! 0%nat = Some r
    ∧ clock st = 3000 * Millisecond + 60 * Second
    ∧ orch r = OParked
    ∧ w r = [HeaderAdd contentType applicationJSON]
    ∧ status_of (w r) = None
    ∧ step jsonMarshal defaultServer (Fire 0) st = None
    ∧ step jsonMarshal defaultServer (Orch 0) st = None
    ∧ ∃ st' r',
        run plainMarshal defaultServer
            (Return 0 moscowReply :: successPath ++ [Orch 0]) st = Some st'
        ∧ reqs st' !! 0%nat = Some r'
        ∧ orch r' = OReturned
        ∧ status_of (w r') = Some StatusOK
        ∧ plainMarshal moscowOutput = inr (body_of (w r')))
  ∧ (∃ st r body,
      run plainMarshal defaultServer
          (missAndPark ++ [Return 0 moscowReply; Work 0; Work 0; Work 0] ++ deadlinePath)
          coldStart = Some st
      ∧ reqs st !! 0%nat = Some r
      ∧ orch r = OReturned
      ∧ plainMarshal moscowOutput = inr body
      ∧ w r = [HeaderAdd contentType applicationJSON; Write body;
               WriteHeader StatusGatewayTimeout; Write internalErr]
      ∧ status_of (w r) = Some StatusOK
      ∧ body_of (w r) = body +:+ internalErr).
Proof.
  split.
  - eexists _, _. split; [vm_compute; reflexivity|].
    repeat (split; [reflexivity|]).
    eexists _, _. split; [vm_compute; reflexivity|]. repeat split.
  - eexists _, _, _. split; [vm_compute; reflexivity|].
    split; [reflexivity|]. split; [reflexivity|]. split; [reflexivity|].
    repeat split.
Qed.

(** Whenever [handlerFunc] has returned while the worker is still inside
    [s.request], the worker's call fails with the context and its error
    path writes on the writer of the answered request. *)
Lemma late_worker_still_writes (s : server) (i : nat) (st : sys) (r : req)
      (rep : reply) :
  crashed st = false →
  reqs st !! i = Some r →
  orch r = OReturned →
  ctx_done r = true →
  work r = Some WFetching →
  ∃ st' r', run jsonMarshal s [Return i rep; Work i] st = Some st'
    ∧ reqs st' !! i = Some r'
    ∧ orch r' = OReturned
    ∧ w r' = w r ++ [Write internalErr].
Proof.
  intros Hc Hr Ho Hd Hw.
  assert (Hi : (i < length (reqs st))%nat) by (by eapply lookup_lt_Some).
  assert (∃ e, request (ctx_done r) rep = inl e) as [e He].
  { rewrite Hd. unfold request. destruct rep; simpl; eauto. }
  set (r1 := set_work (Some (WFailed e)) r).
  set (st1 := set_calls (calls st ++ [(url r, inl e)]) (set_req i r1 st)).
  set (r2 := set_work (Some WSignal) (set_w (w r1 ++ [Write internalErr]) r1)).
  assert (H1 : step jsonMarshal s (Return i rep) st = Some st1).
  { unfold step, handler_request. rewrite Hc, Hr. cbn. by rewrite Hw, He. }
  assert (H2 : step jsonMarshal s (Work i) st1 = Some (set_req i r2 st1)).
  { unfold step, handler_step. cbn. rewrite Hc.
    by rewrite list_lookup_insert_eq by done. }
  exists (set_req i r2 st1), r2.
  split; [cbn [run]; rewrite H1; cbn; by rewrite H2|].
  split; [cbn; by rewrite list_insert_insert_eq, list_lookup_insert_eq by done|].
  by split.
Qed.

(** *** A fetch that fails before the deadline *)

(** The error path of [handler] writes the error body and no status: on a
    writer that has no status yet the response goes out with 200. The
    cache is not touched and [request] is not called again. *)
Lemma failure_path_status_200 (s : server) (i : nat) (st : sys) (r : req)
      (rep : reply) (e : error) :
  crashed st = false →
  reqs st !! i = Some r →
  work r = Some WFetching →
  status_of (w r) = None →
  request (ctx_done r) rep = inl e →
  ∃ st' r', run jsonMarshal s [Return i rep; Work i] st = Some st'
    ∧ reqs st' !! i = Some r'
    ∧ work r' = Some WSignal
    ∧ status_of (w r') = Some StatusOK
    ∧ body_of (w r') = body_of (w r) +:+ internalErr
    ∧ cache st' = cache st
    ∧ calls st' = calls st ++ [(url r, inl e)].
Proof.
  intros Hc Hr Hw Hs He.
  assert (Hi : (i < length (reqs st))%nat) by (by eapply lookup_lt_Some).
  set (r1 := set_work (Some (WFailed e)) r).
  set (st1 := set_calls (calls st ++ [(url r, inl e)]) (set_req i r1 st)).
  set (r2 := set_work (Some WSignal) (set_w (w r1 ++ [Write internalErr]) r1)).
  assert (H1 : step jsonMarshal s (Return i rep) st = Some st1).
  { unfold step, handler_request. rewrite Hc, Hr. cbn. by rewrite Hw, He. }
  assert (H2 : step jsonMarshal s (Work i) st1 = Some (set_req i r2 st1)).
  { unfold step, handler_step. cbn. rewrite Hc.
    by rewrite list_lookup_insert_eq by done. }
  exists (set_req i r2 st1), r2.
  split; [cbn [run]; rewrite H1; cbn; by rewrite H2|].
  split; [cbn; by rewrite list_insert_insert_eq, list_lookup_insert_eq by done|].
  split; [done|]. cbn.
  rewrite status_of_app, body_of_app, Hs. cbn.
  by rewrite append_nil_r.
Qed.

(** C4, evaluated where the upstream answers 503 before the deadline: the
    client gets the error body, the cache stays empty and [request] was
    called once, but the status is 200: [handler] writes the body without
    [WriteHeader(http.StatusInternalServerError)]. *)
Theorem fetch_failure_answered_with_200 :
  ∃ st r,
    run jsonMarshal defaultServer
        (missAndPark ++ Return 0 (Response 503 (Document moscowDoc)) :: failurePath ++ [Orch 0])
        coldStart = Some st
    ∧ reqs st !! 0%nat = Some r
    ∧ orch r = OReturned
    ∧ w r = [HeaderAdd contentType applicationJSON; Write internalErr]
    ∧ status_of (w r) = Some StatusOK
    ∧ status_of (w r) ≠ Some StatusInternalServerError
    ∧ body_of (w r) = internalErr
    ∧ Lru.items (cache st) = []
    ∧ calls st = [(placesURL, inl (ErrStatus 503))].
Proof.
  eexists _, _. split; [vm_compute; reflexivity|].
  repeat (split; [reflexivity|]). split; [discriminate|]. repeat split.
Qed.

End Runs.

(** The same failure in the variant without the cache: status 500, then the
    error body. *)
Lemma Logged_failure_answers_500 (jsonMarshal : outputResp → error + string)
      (s : Logged.server) (latency : Z) (fired : bool) (rep : reply) (e : error) :
  Logged.request (mul64 (Logged.reqTimeout s) Millisecond) latency fired rep = inl e →
  Logged.handlerFunc jsonMarshal s latency fired rep
  = Some [HeaderAdd contentType applicationJSON;
          WriteHeader StatusInternalServerError; Write internalErr].
Proof. intros H. unfold Logged.handlerFunc. by rewrite H. Qed.

(** And in the plain variant: status 504 and no body, whatever the error. *)
Lemma Plain_failure_answers_504 (jsonMarshal : outputResp → error + string)
      (s : Plain.server) (latency : Z) (fired : bool) (rep : reply) (e : error) :
  Plain.request (mul64 (Plain.reqTimeout s) Millisecond) latency fired rep = inl e →
  Plain.handlerFunc jsonMarshal s latency fired rep
  = Some [WriteHeader StatusGatewayTimeout].
Proof. intros H. unfold Plain.handlerFunc. by rewrite H. Qed.

(** ** The context cancels the upstream call *)

(** A request bound to a context that is done fails. *)
Lemma fetch_done_fails (rep : reply) : ∃ e, fetch true rep = inl e.
Proof. destruct rep; simpl; eauto. Qed.

Section Cancellation.

Variable jsonMarshal : outputResp → error + string.

Import Cached.

(** A request whose worker is past a failed call keeps the cache and the
    record of calls as they are, whatever it does next. *)
Lemma own_step_settled (s : server) (i : nat) (a : action) (st st' : sys) (r : req) :
  own i a = true →
  step jsonMarshal s a st = Some st' →
  reqs st !! i = Some r →
  orch r ≠ OStart →
  settled (work r) = true →
  cache st' = cache st ∧ calls st' = calls st
  ∧ ∃ r', reqs st' !! i = Some r' ∧ orch r' ≠ OStart ∧ settled (work r') = true.
Proof.
  intros Hown Hstep Hr Ho Hw.
  assert (Hi : (i < length (reqs st))%nat) by (by eapply lookup_lt_Some).
  unfold step in Hstep. destruct (crashed st); [done|].
  destruct a as [u|d|j|j|j|j rep|j]; simpl in Hown; try done;
    try (apply bool_decide_eq_true in Hown; subst j).
  - destruct (0 <? d); [|done]. injection Hstep as <-. simpl. eauto 10.
  - unfold fire in Hstep. rewrite Hr in Hstep. simpl in Hstep.
    destruct (ctx_done r); [done|]. destruct (_ <=? _); [|done].
    injection Hstep as <-. do 2 (split; [done|]). eexists. split.
    { simpl. by rewrite list_lookup_insert_eq. }
    unfold wake. simpl. destruct (orch r) eqn:E; simpl; rewrite ?E; done.
  - unfold hangup in Hstep. rewrite Hr in Hstep. simpl in Hstep.
    assert (∃ r', Some st' = Some (set_req i r' st) ∧ orch r' ≠ OStart
                  ∧ settled (work r') = true) as (r' & Hst & ? & ?).
    { exists (wake (set_cancelled r)).
      destruct (orch r) eqn:E; try done; destruct (cancelled r); try done;
        (split; [done|]); unfold wake; simpl; rewrite E; simpl; rewrite ?E; done. }
    injection Hst as ->. do 2 (split; [done|]). exists r'.
    split; [simpl; by rewrite list_lookup_insert_eq|done].
  - unfold handlerFunc_step in Hstep. rewrite Hr in Hstep. simpl in Hstep.
    assert (∃ r', Some st' = Some (set_req i r' st) ∧ orch r' ≠ OStart
                  ∧ settled (work r') = true) as (r' & Hst & ? & ?).
    { destruct (orch r) eqn:E; try done; rewrite <- Hstep; eexists;
        (split; [reflexivity|]); simpl; (split; [|done]); try done.
      by destruct (ctx_done r). }
    injection Hst as ->. do 2 (split; [done|]). exists r'.
    split; [simpl; by rewrite list_lookup_insert_eq|done].
  - unfold handler_step in Hstep. rewrite Hr in Hstep. simpl in Hstep.
    assert (∃ r', Some st' = Some (set_req i r' st) ∧ orch r' ≠ OStart
                  ∧ settled (work r') = true) as (r' & Hst & ? & ?).
    { destruct (work r) as [[]|] eqn:E; try done; simpl in Hstep;
        rewrite <- Hstep; eexists; (split; [reflexivity|]); simpl;
        (split; [|done]); try done.
      destruct (orch r) eqn:E'; simpl; rewrite ?E'; done. }
    injection Hst as ->. do 2 (split; [done|]). exists r'.
    split; [simpl; by rewrite list_lookup_insert_eq|done].
Qed.

Lemma run_own_settled (s : server) (i : nat) (sched : list action) :
  ∀ (st st' : sys) (r : req),
    forallb (own i) sched = true →
    run jsonMarshal s sched st = Some st' →
    reqs st !! i = Some r →
    orch r ≠ OStart →
    settled (work r) = true →
    cache st' = cache st ∧ calls st' = calls st
    ∧ ∃ r', reqs st' !! i = Some r' ∧ settled (work r') = true.
Proof.
  induction sched as [|a sched IH]; intros st st' r Hown Hrun Hr Ho Hw.
  - injection Hrun as <-. eauto.
  - cbn [forallb] in Hown. apply andb_prop in Hown as [Ha Hown].
    cbn [run] in Hrun.
    destruct (step jsonMarshal s a st) as [st1|] eqn:Hstep; [|done].
    destruct (own_step_settled s i a st st1 r Ha Hstep Hr Ho Hw)
      as (Hc1 & Hl1 & r1 & Hr1 & Ho1 & Hw1).
    destruct (IH st1 st' r1 Hown Hrun Hr1 Ho1 Hw1) as (Hc2 & Hl2 & Hex).
    rewrite Hc2, Hl2. auto.
Qed.

(** C3, as the code has it. When the context of a request is done (its
    deadline has fired) while the upstream call of its worker is in
    flight, the call is cancelled with the context: it returns an error
    whatever the upstream answers, and in all that the request does from
    then on nothing is added to the cache. *)
Theorem deadline_cancels_inflight_fetch
        (s : server) (i : nat) (st st' : sys) (r : req)
        (rep : reply) (sched : list action) :
  reqs st !! i = Some r →
  ctx_done r = true →
  work r = Some WFetching →
  orch r ≠ OStart →
  forallb (own i) sched = true →
  run jsonMarshal s (Return i rep :: sched) st = Some st' →
  cache st' = cache st
  ∧ (∃ e, calls st' = calls st ++ [(url r, inl e)])
  ∧ ∃ r', reqs st' !! i = Some r' ∧ settled (work r') = true.
Proof.
  intros Hr Hd Hw Ho Hown Hrun.
  assert (Hi : (i < length (reqs st))%nat) by (by eapply lookup_lt_Some).
  cbn [run] in Hrun.
  destruct (step jsonMarshal s (Return i rep) st) as [st1|] eqn:Hstep; [|done].
  unfold step in Hstep. destruct (crashed st); [done|].
  unfold handler_request in Hstep. rewrite Hr in Hstep. cbn in Hstep.
  rewrite Hw, Hd in Hstep. unfold request in Hstep.
  destruct (fetch_done_fails rep) as [e He]. rewrite He in Hstep.
  injection Hstep as <-.
  edestruct (run_own_settled s i sched) as (Hc & Hl & Hex); [done|done| | | |].
  - cbn. by rewrite list_lookup_insert_eq.
  - done.
  - done.
  - rewrite Hc, Hl. cbn. eauto.
Qed.

End Cancellation.

(** The theorem at the sample run: the deadline has answered the request,
    the upstream then answers with a good body. *)
Lemma deadline_cancels_inflight_fetch_witness :
  Cached.cache afterCancelledFetch = Cached.cache answeredByDeadline
  ∧ (∃ e, Cached.calls afterCancelledFetch
          = Cached.calls answeredByDeadline ++ [(Cached.url timedOutRequest, inl e)])
  ∧ ∃ r', Cached.reqs afterCancelledFetch !! 0%nat = Some r'
          ∧ Cached.settled (Cached.work r') = true.
Proof.
  apply (deadline_cancels_inflight_fetch plainMarshal defaultServer 0
           answeredByDeadline afterCancelledFetch timedOutRequest
           moscowReply failurePath);
    [reflexivity | reflexivity | reflexivity | discriminate | reflexivity | reflexivity].
Defined.

(** C3 as stated fails on that run: the upstream answers 200 with a body
    that decodes and transforms, yet the call of the worker returns the
    context's error, and the cache holds nothing for the key afterwards. *)
Lemma deadline_cancels_successful_fetch :
  fetch false moscowReply = inr moscowInput
  ∧ transform moscowInput = Some moscowOutput
  ∧ ∃ st r,
      Cached.run plainMarshal defaultServer
        (missAndPark ++ deadlinePath ++ Cached.Return 0 moscowReply :: failurePath)
        coldStart = Some st
      ∧ Cached.reqs st !! 0%nat = Some r
      ∧ Cached.work r = Some Cached.WDone
      ∧ Cached.calls st = [(placesURL, inl ErrTransport)]
      ∧ Lru.Peek placesURL (Cached.cache st) = None.
Proof.
  split; [reflexivity|]. split; [reflexivity|].
  eexists _, _. split; [vm_compute; reflexivity|]. repeat split.
Qed.

(** ** The cache *)

Section LruFacts.
Context {V : Type}.
Implicit Types (c : Lru.t V) (l : list (string * V)).

Lemma lookup_elem key l v : Lru.lookup key l = Some v → (key, v) ∈ l.
Proof.
  unfold Lru.lookup. induction l as [|[k x] l IH]; simpl; [done|].
  case_bool_decide as Hk; simpl in *.
  - intros [= <-]. subst k. left.
  - intros H. right. by apply IH.
Qed.

Lemma remove_subset key l kv : kv ∈ Lru.remove key l → kv ∈ l.
Proof. unfold Lru.remove. rewrite list_elem_of_filter. tauto. Qed.

Lemma removelast_subset l kv : kv ∈ removelast l → kv ∈ l.
Proof.
  induction l as [|a l IH]; [done|]. simpl.
  destruct l as [|b l]; [by intros ?%elem_of_nil|].
  intros [->|H]%elem_of_cons; [left|right; by apply IH].
Qed.

Lemma Get_items key c kv : kv ∈ Lru.items (Lru.Get key c).2 → kv ∈ Lru.items c.
Proof.
  unfold Lru.Get. destruct (Lru.lookup key (Lru.items c)) as [v|] eqn:E; simpl; [|done].
  intros [->|H]%elem_of_cons; [by apply lookup_elem|by eapply remove_subset].
Qed.

Lemma Add_items key v c kv :
  kv ∈ Lru.items (Lru.Add key v c) → kv = (key, v) ∨ kv ∈ Lru.items c.
Proof.
  unfold Lru.Add.
  destruct (Lru.lookup key (Lru.items c)) as [x|] eqn:E; cbn [Lru.items].
  - intros [->|H]%elem_of_cons; [by left|right; by eapply remove_subset].
  - destruct (_ <? _)%nat; [intros H%removelast_subset|intros H];
      apply elem_of_cons in H as [->|H]; auto.
Qed.

(** A key that was just added is there, in a cache of positive size. *)
Lemma Peek_Add key v c :
  (0 < Lru.size c)%nat → Lru.Peek key (Lru.Add key v c) = Some v.
Proof.
  intros Hs. unfold Lru.Peek, Lru.Add.
  destruct (Lru.lookup key (Lru.items c)) as [x|] eqn:E; cbn [Lru.items length].
  - unfold Lru.lookup. simpl. by rewrite bool_decide_eq_true_2.
  - destruct (Nat.ltb_spec (Lru.size c) (S (length (Lru.items c)))).
    + destruct (Lru.items c) as [|b l] eqn:El; simpl in *; [lia|].
      unfold Lru.lookup. simpl. by rewrite bool_decide_eq_true_2.
    + unfold Lru.lookup. simpl. by rewrite bool_decide_eq_true_2.
Qed.

(** [Get] finds what [Peek] sees, and the entry stays. *)
Lemma Get_Peek key c : (Lru.Get key c).1 = Lru.Peek key c.
Proof. unfold Lru.Get, Lru.Peek. by destruct (Lru.lookup _ _). Qed.

Lemma Peek_Get key c : Lru.Peek key (Lru.Get key c).2 = Lru.Peek key c.
Proof.
  unfold Lru.Get, Lru.Peek. destruct (Lru.lookup key (Lru.items c)) eqn:E; simpl; [|done].
  unfold Lru.lookup. simpl. by rewrite bool_decide_eq_true_2.
Qed.
End LruFacts.

Section Invariant.
Variable jsonMarshal : outputResp → error + string.
Import Cached.

Lemma fetched_mono (st st' : sys) key output :
  (∀ x, x ∈ calls st → x ∈ calls st') →
  fetched st key output → fetched st' key output.
Proof. intros Hsub (input & Hin & Ht). exists input. auto. Qed.

(** The shape of every step, as far as the invariant goes: new entries of
    the cache are fetched outputs, the record of calls grows, and a worker
    either is fine in the new state or is as it was. *)
Lemma inv_update (st st' : sys) :
  (∀ key v, (key, v) ∈ Lru.items (cache st') →
     (key, v) ∈ Lru.items (cache st)
     ∨ ∃ output, v = AnyOutputResp output ∧ fetched st' key output) →
  (∀ x, x ∈ calls st → x ∈ calls st') →
  (∀ j r', reqs st' !! j = Some r' →
     worker_ok st' r'
     ∨ ∃ r, reqs st !! j = Some r ∧ url r' = url r ∧ work r' = work r) →
  inv st → inv st'.
Proof.
  intros Hcache Hcalls Hreqs [Hc Hw]. split.
  - intros key v Hin. destruct (Hcache key v Hin) as [Hold|Hnew]; [|done].
    destruct (Hc key v Hold) as (output & -> & Hf).
    exists output. split; [done|]. by eapply fetched_mono.
  - intros j r' Hj. destruct (Hreqs j r' Hj) as [|(r & Hr & Hu & Hk)]; [done|].
    specialize (Hw j r Hr). unfold worker_ok in *. rewrite Hk, Hu.
    destruct (work r) as [[]|]; auto; by eapply fetched_mono.
Qed.

Lemma lookup_set_req (i j : nat) (r x : req) (st : sys) :
  reqs (set_req i r st) !! j = Some x →
  (j = i ∧ x = r) ∨ reqs st !! j = Some x.
Proof.
  cbn. intros H. apply list_lookup_insert_Some in H as [(-> & -> & _)|[_ H]]; auto.
Qed.

(** A step that replaces request [i] by one with the same key and the
    same worker, and leaves the rest alone. *)
Lemma inv_same_worker (i : nat) (r r' : req) (st : sys) :
  reqs st !! i = Some r → url r' = url r → work r' = work r →
  inv st → inv (set_req i r' st).
Proof.
  intros Hr Hu Hk. apply inv_update; [auto|auto|].
  intros j x [[-> ->]|H]%lookup_set_req; right; eauto.
Qed.

Lemma step_inv (s : server) (a : action) (st st' : sys) :
  step jsonMarshal s a st = Some st' → inv st → inv st'.
Proof.
  unfold step. destruct (crashed st) eqn:Hcr; [done|].
  destruct a as [u|d|i|i|i|i rep|i].
  - intros [= <-]. apply inv_update; [auto|auto|].
    intros j r'. cbn. intros [H|[_ H]]%lookup_app_Some; [right; eauto|].
    left. apply list_lookup_singleton_Some in H as [_ <-]. exact I.
  - destruct (0 <? d); [|done]. intros [= <-]. apply inv_update; eauto.
  - unfold fire. destruct (reqs st !! i) as [r|] eqn:Hr; [|done]. cbn.
    destruct (ctx_done r); [done|]. destruct (_ <=? _); [|done].
    intros [= <-]. apply (inv_same_worker i r); [done| |];
      unfold wake; cbn; by destruct (orch r).
  - unfold hangup. destruct (reqs st !! i) as [r|] eqn:Hr; [|done]. cbn.
    intros H.
    assert (st' = set_req i (wake (set_cancelled r)) st) as ->
      by (destruct (orch r), (cancelled r); congruence).
    apply (inv_same_worker i r); [done| |]; unfold wake; cbn; by destruct (orch r).
  - unfold handlerFunc_step. destruct (reqs st !! i) as [r|] eqn:Hr; [|done]. cbn.
    destruct (orch r) eqn:Ho; try done;
      try (intros [= <-]; by apply (inv_same_worker i r)).
    unfold pullAndResponse.
    destruct (Lru.Get (url r) (cache st)) as [val c] eqn:Hget.
    assert (Hsub : ∀ kv, kv ∈ Lru.items c → kv ∈ Lru.items (cache st)).
    { intros kv. replace c with (Lru.Get (url r) (cache st)).2 by (by rewrite Hget).
      apply Get_items. }
    intros H Hinv.
    assert (∃ r', st' = set_cache c (set_req i r' st) ∧ url r' = url r
            ∧ (work r' = work r ∨ work r' = Some WFetching)) as (r' & -> & Hu & Hk).
    { destruct val as [[]|]; injection H as <-; eexists; split; try reflexivity; cbn; auto. }
    revert Hinv. apply inv_update; [cbn; auto|auto|].
    cbn. intros j x Hj. apply list_lookup_insert_Some in Hj as [(-> & -> & _)|[_ Hj]].
    + destruct Hk as [Hk|Hk]; [right; eauto|]. left. unfold worker_ok. by rewrite Hk.
    + right. eauto.
  - unfold handler_request. destruct (reqs st !! i) as [r|] eqn:Hr; [|done]. cbn.
    destruct (work r) as [[]|] eqn:Hk; try done. intros [= <-].
    apply inv_update; [auto|cbn; intros x Hx; apply elem_of_app; auto|].
    cbn. intros j x Hj. apply list_lookup_insert_Some in Hj as [(-> & <- & _)|[_ Hj]].
    + left. unfold worker_ok. cbn.
      destruct (request (ctx_done r) rep); [exact I|].
      apply elem_of_app. right. left.
    + right. eauto.
  - unfold handler_step. destruct (reqs st !! i) as [r|] eqn:Hr; [|done]. cbn.
    destruct (work r) as [p|] eqn:Hk; [|done]. cbn.
    intros Hstep Hinv. pose proof (proj2 Hinv i r Hr) as Hok.
    unfold worker_ok in Hok. rewrite Hk in Hok.
    destruct p as [|e|input|output|output| | |]; try done.
    + injection Hstep as <-. revert Hinv. apply inv_update; [auto|auto|].
      intros j x [[-> ->]|H]%lookup_set_req; [by left|right; eauto].
    + destruct (transform input) as [output|] eqn:Ht; injection Hstep as <-.
      * revert Hinv. apply inv_update; [auto|auto|].
        intros j x [[-> ->]|H]%lookup_set_req; [|right; eauto].
        left. unfold worker_ok. cbn. exists input. auto.
      * revert Hinv. apply inv_update; [auto|auto|].
        intros j x [[-> ->]|H]%lookup_set_req; [by left|right; eauto].
    + injection Hstep as <-. revert Hinv. apply inv_update; [|auto|].
      * cbn. intros key v [[= -> ->]|H]%Add_items; [|by left].
        right. exists output. split; [done|]. exact Hok.
      * cbn. intros j x Hj.
        apply list_lookup_insert_Some in Hj as [(-> & <- & _)|[_ Hj]]; [|right; eauto].
        left. unfold worker_ok. cbn. exact Hok.
    + injection Hstep as <-. revert Hinv. apply inv_update; [auto|auto|].
      intros j x [[-> ->]|H]%lookup_set_req; [by left|right; eauto].
    + injection Hstep as <-. revert Hinv. apply inv_update; [auto|auto|].
      intros j x [[-> ->]|H]%lookup_set_req; [by left|right; eauto].
    + injection Hstep as <-. revert Hinv. apply inv_update; eauto.
Qed.

Lemma run_inv (s : server) (sched : list action) :
  ∀ st st', run jsonMarshal s sched st = Some st' → inv st → inv st'.
Proof.
  induction sched as [|a sched IH]; intros st st'; cbn [run].
  - by intros [= <-].
  - destruct (step jsonMarshal s a st) as [st1|] eqn:Hstep; [|done]. cbn.
    intros Hrun Hinv. eapply IH; [done|]. by eapply step_inv.
Qed.

Lemma boot_inv (cfg : config) (st : sys) : boot cfg = Some st → inv st.
Proof.
  unfold boot, Lru.New. destruct (_ <=? _); [done|]. cbn. intros [= <-].
  split; [intros key v H; by apply elem_of_nil in H|intros i r H; done].
Qed.

(** C7. In every state the process can reach, every value held by the
    cache is an [outputResp] that the transformer returned for the result
    of a successful call of [request] made for the key of the entry:
    never a raw input, an error or a collection left unfinished by a
    panic; and that call and transform have succeeded before the entry
    is written. *)
Theorem cache_holds_transformed_outputs_only
        (cfg : config) (sched : list action) (st0 st : sys) :
  boot cfg = Some st0 →
  run jsonMarshal (newServer cfg) sched st0 = Some st →
  ∀ key v, (key, v) ∈ Lru.items (cache st) →
    ∃ (input : inputResp) (output : outputResp),
      v = AnyOutputResp output
      ∧ transform input = Some output
      ∧ (key, inr input) ∈ calls st.
Proof.
  intros Hb Hrun key v Hin.
  destruct (run_inv _ _ _ _ Hrun (boot_inv _ _ Hb)) as [Hc _].
  destruct (Hc key v Hin) as (output & -> & input & Hcall & Ht). eauto.
Qed.
End Invariant.

Section Hits.
Variable jsonMarshal : outputResp → error + string.
Import Cached.

(** What [push] stores is there for the next lookup. *)
Lemma push_then_peek (c : Lru.t any) (key : string) (v : any) :
  (0 < Lru.size c)%nat → Lru.Peek key (push c key v) = Some v.
Proof. apply Peek_Add. Qed.

(** C8. While the cache holds an [outputResp] for the key of a request,
    that is after a successful fetch has stored it and as long as it is
    not evicted, [handlerFunc] answers the request with that collection
    and returns: after the content type, the one call made on the writer
    is the [Write] of the encoding of the cached collection (no call when
    [json.Marshal] fails); no worker is started and [request] is not
    called. *)
Theorem cache_hit_answers_without_upstream
        (s : server) (st : sys) (i : nat) (r : req) (o : outputResp) :
  crashed st = false →
  reqs st !! i = Some r →
  orch r = OStart →
  Lru.Peek (url r) (cache st) = Some (AnyOutputResp o) →
  ∃ st' r',
    step jsonMarshal s (Orch i) st = Some st'
    ∧ reqs st' !! i = Some r'
    ∧ orch r' = OReturned
    ∧ work r' = work r
    ∧ w r' = w r ++ HeaderAdd contentType applicationJSON
                    :: match jsonMarshal o with
                       | inr body => [Write body]
                       | inl _ => []
                       end
    ∧ calls st' = calls st
    ∧ Lru.Peek (url r) (cache st') = Some (AnyOutputResp o).
Proof.
  intros Hc Hr Ho Hp.
  assert (Hi : (i < length (reqs st))%nat) by (by eapply lookup_lt_Some).
  unfold step, handlerFunc_step. rewrite Hc, Hr. cbn. rewrite Ho.
  unfold pullAndResponse.
  pose proof (Get_Peek (url r) (cache st)) as H1.
  pose proof (Peek_Get (url r) (cache st)) as H2.
  destruct (Lru.Get (url r) (cache st)) as [val c]. cbn in H1, H2.
  rewrite H1, Hp. eexists _, _. split; [reflexivity|]. cbn.
  rewrite list_lookup_insert_eq by done.
  split; [reflexivity|]. split; [reflexivity|]. split; [reflexivity|].
  split; [|by rewrite H2].
  cbn [w set_orch set_cancelled set_w]. unfold response.
  destruct (jsonMarshal o); [done|]. by rewrite <- app_assoc.
Qed.

(** C10. When the lookup finds a value that is not an [outputResp],
    [pullAndResponse] reports a miss without writing anything, and
    [handlerFunc] goes on to start the worker and its fetch: no panic, no
    status and no body written. *)
Theorem foreign_cache_value_is_a_miss
        (s : server) (st : sys) (i : nat) (r : req) (v : any) :
  crashed st = false →
  reqs st !! i = Some r →
  orch r = OStart →
  Lru.Peek (url r) (cache st) = Some v →
  (∀ o, v ≠ AnyOutputResp o) →
  (pullAndResponse jsonMarshal (cache st) (url r) (w r)).1 = (false, w r)
  ∧ ∃ st' r',
      step jsonMarshal s (Orch i) st = Some st'
      ∧ crashed st' = false
      ∧ reqs st' !! i = Some r'
      ∧ orch r' = OSpawned
      ∧ work r' = Some WFetching
      ∧ w r' = w r ++ [HeaderAdd contentType applicationJSON]
      ∧ status_of (w r') = status_of (w r)
      ∧ body_of (w r') = body_of (w r).
Proof.
  intros Hc Hr Ho Hp Hv.
  assert (Hi : (i < length (reqs st))%nat) by (by eapply lookup_lt_Some).
  unfold step, handlerFunc_step. rewrite Hc, Hr. cbn. rewrite Ho.
  unfold pullAndResponse.
  pose proof (Get_Peek (url r) (cache st)) as H1.
  destruct (Lru.Get (url r) (cache st)) as [val c]. cbn in H1.
  rewrite H1, Hp.
  assert (Hmiss : match v with
                  | AnyOutputResp data =>
                      (true, response jsonMarshal (w r ++ [HeaderAdd contentType applicationJSON]) data, c)
                  | _ => (false, w r ++ [HeaderAdd contentType applicationJSON], c)
                  end = (false, w r ++ [HeaderAdd contentType applicationJSON], c)).
  { destruct v as [o| | |]; [by destruct (Hv o)|done|done|done]. }
  split; [by destruct v as [o| | |]; [destruct (Hv o)| | |]|].
  rewrite Hmiss. eexists _, _. split; [reflexivity|].
  cbn [crashed reqs set_cache set_req set_reqs].
  rewrite list_lookup_insert_eq by done.
  do 5 (split; [done|]). cbn [w set_orch set_work set_w].
  rewrite status_of_app, body_of_app. cbn. rewrite append_nil_r.
  split; [by destruct (status_of (w r))|done].
Qed.
End Hits.

(** The invariant at the state reached by serving one request. *)
Lemma cache_holds_transformed_outputs_only_witness :
  ∃ (input : inputResp) (output : outputResp),
    AnyOutputResp moscowOutput = AnyOutputResp output
    ∧ transform input = Some output
    ∧ (placesURL, inr input) ∈ Cached.calls servedOnce.
Proof.
  apply (cache_holds_transformed_outputs_only plainMarshal Cached.newConfig
           (missAndPark ++ Cached.Return 0 moscowReply :: successPath ++ [Cached.Orch 0])
           coldStart servedOnce);
    [reflexivity | vm_compute; reflexivity | vm_compute; left].
Defined.

(** The second request for the key is served from the cache. *)
Lemma cache_hit_answers_without_upstream_witness :
  ∃ st' r',
    Cached.step plainMarshal defaultServer (Cached.Orch 1) secondArrives = Some st'
    ∧ Cached.reqs st' !! 1%nat = Some r'
    ∧ Cached.orch r' = Cached.OReturned
    ∧ Cached.work r' = Cached.work freshRequest
    ∧ Cached.w r'
      = Cached.w freshRequest ++ HeaderAdd contentType applicationJSON
          :: match plainMarshal moscowOutput with
             | inr body => [Write body]
             | inl _ => []
             end
    ∧ Cached.calls st' = Cached.calls secondArrives
    ∧ Lru.Peek (Cached.url freshRequest) (Cached.cache st') = Some (AnyOutputResp moscowOutput).
Proof.
  apply (cache_hit_answers_without_upstream plainMarshal defaultServer
           secondArrives 1 freshRequest moscowOutput); reflexivity.
Defined.

(** A raw input under the key of the request: the worker is started. *)
Lemma foreign_cache_value_is_a_miss_witness :
  (Cached.pullAndResponse plainMarshal (Cached.cache foreignEntry)
     (Cached.url freshRequest) (Cached.w freshRequest)).1
  = (false, Cached.w freshRequest)
  ∧ ∃ st' r',
      Cached.step plainMarshal defaultServer (Cached.Orch 0) foreignEntry = Some st'
      ∧ Cached.crashed st' = false
      ∧ Cached.reqs st' !! 0%nat = Some r'
      ∧ Cached.orch r' = Cached.OSpawned
      ∧ Cached.work r' = Some Cached.WFetching
      ∧ Cached.w r' = Cached.w freshRequest ++ [HeaderAdd contentType applicationJSON]
      ∧ status_of (Cached.w r') = status_of (Cached.w freshRequest)
      ∧ body_of (Cached.w r') = body_of (Cached.w freshRequest).
Proof.
  apply (foreign_cache_value_is_a_miss plainMarshal defaultServer
           foreignEntry 0 freshRequest (AnyInputResp moscowInput));
    [reflexivity | reflexivity | reflexivity | reflexivity | discriminate].
Defined.

(** ** Decoding *)

Section Decoding.
Import Json.

(** A member with an unknown key is skipped, whatever its value and
    whatever the other members are. *)
Lemma unknown_member_is_skipped (before after : list (string * json))
      (key : string) (v : json) :
  field_of_key key = None →
  ∀ it, object (before ++ (key, v) :: after) it = object (before ++ after) it.
Proof.
  intros Hk. induction before as [|[k x] before IH]; intros it; cbn.
  - by rewrite Hk.
  - destruct (field_of_key k) as [f|]; [|done].
    by destruct (accepts (field_type f) x).
Qed.

Lemma object_tolerated (members : list (string * json)) :
  ∀ it, forallb tolerated members = true →
    object members it
    = Some {| Code := last_string FCode members (Code it);
              Name := last_string FName members (Name it);
              CountryName := last_string FCountryName members (CountryName it) |}.
Proof.
  induction members as [|[key v] members IH]; intros it Htol.
  - by destruct it.
  - cbn [forallb] in Htol. apply andb_prop in Htol as [Hkv Htol].
    cbn [object last_string]. unfold tolerated in Hkv. cbn [fst snd] in Hkv.
    destruct (field_of_key key) as [f|]; [|by apply IH].
    destruct f; cbn [field_type] in Hkv |- *;
      destruct v; cbn in Hkv; try done; cbn;
      rewrite ?Hkv; by rewrite IH.
Qed.

(** Conversely, a member that is not tolerated makes the object fail. *)
Lemma tolerated_accepts (key : string) (v : json) (f : field) :
  field_of_key key = Some f → tolerated (key, v) = accepts (field_type f) v.
Proof.
  intros Hf. unfold tolerated. cbn [fst snd]. rewrite Hf.
  destruct (field_type f); try done. by destruct v.
Qed.

Lemma object_rejects (members : list (string * json)) :
  ∀ it, forallb tolerated members = false → object members it = None.
Proof.
  induction members as [|[key v] members IH]; intros it Htol; [done|].
  cbn [forallb] in Htol. cbn [object].
  destruct (field_of_key key) as [f|] eqn:Hf.
  - rewrite (tolerated_accepts key v f Hf) in Htol.
    destruct (accepts (field_type f) v); [by apply IH|done].
  - unfold tolerated in Htol. cbn [fst] in Htol. rewrite Hf in Htol. by apply IH.
Qed.

Lemma elements_tolerated (objs : list (list (string * json))) :
  Forall (λ members, forallb tolerated members = true) objs →
  mapM element (JObject <$> objs) = Some ((λ members, Some (view members)) <$> objs).
Proof.
  induction 1 as [|members objs Hm _ IH]; [done|].
  cbn. rewrite (object_tolerated members zeroItem Hm). cbn.
  cbn in IH. by rewrite IH.
Qed.

(** C9, as the code has it. An upstream array of objects decodes without
    error when every member of every object is an unknown (extra) key
    with any value, or a field declared [interface{}] with a value of any
    shape whose numbers are in the range of [float64], or another declared
    field with a value of its type ([code], [name], [country_name]: a
    string or [null]); fields may be absent. What the core gets of each
    object is the last string given for each of [code], [name] and
    [country_name], the empty string when there is none, and the output
    is made of these alone. *)
Theorem decoding_tolerates_foreign_members (objs : list (list (string * json))) :
  Forall (λ members, forallb tolerated members = true) objs →
  unmarshal (JArray (JObject <$> objs))
  = inr ((λ members, Some (view members)) <$> objs)
  ∧ transform ((λ members, Some (view members)) <$> objs)
    = Some ((λ members, Some (makeItem (view members))) <$> objs).
Proof.
  intros H. split.
  - unfold unmarshal. by rewrite elements_tolerated.
  - pose proof (transform_total (view <$> objs)) as Ht.
    by rewrite <- !list_fmap_compose in Ht.
Qed.
End Decoding.

(** The theorem at [tolerantObjects]. *)
Lemma decoding_tolerates_foreign_members_witness :
  Json.unmarshal (Json.JArray (Json.JObject <$> tolerantObjects))
  = inr ((λ members, Some (Json.view members)) <$> tolerantObjects)
  ∧ transform ((λ members, Some (Json.view members)) <$> tolerantObjects)
    = Some ((λ members, Some (makeItem (Json.view members))) <$> tolerantObjects).
Proof.
  apply (decoding_tolerates_foreign_members tolerantObjects).
  repeat constructor.
Defined.

(** C9 as stated fails for a loosely-typed field that holds a number
    outside of the range of [float64]: [state_code] is declared
    [interface{}], and the body [[{"state_code": 1e999}]] makes
    [json.Unmarshal] return an error. *)
Lemma loose_field_number_overflow_fails :
  Json.field_of_key "state_code" = Some Json.StateCode
  ∧ Json.field_type Json.StateCode = Json.TInterface
  ∧ Json.unmarshal
      (Json.JArray [Json.JObject [("state_code", Json.JNumber (Json.Dec 1 999))]])
    = inl ErrDecode.
Proof. repeat split; vm_compute; reflexivity. Qed.

(** The example of the specification, end to end through the decoder and
    the transformer. *)
Lemma moscow_end_to_end :
  fetch false moscowReply = inr moscowInput
  ∧ transform moscowInput = Some moscowOutput
  ∧ plainMarshal moscowOutput
    = inr ("[{" +:+ quoted "slug" +:+ ":" +:+ quoted "MOW" +:+ ","
               +:+ quoted "subtitle" +:+ ":" +:+ quoted "Russia" +:+ ","
               +:+ quoted "title" +:+ ":" +:+ quoted "Moscow" +:+ "}]").
Proof. repeat split. Qed.

(** * Further properties of the code *)

(** ** What [request] returns *)

(** [request] returns an input only for a reply with status 200 whose body
    is read, is JSON and decodes, and only while the context is not done;
    and for every such reply it does. *)
Theorem fetch_succeeds_iff (done : bool) (r : reply) (input : inputResp) :
  fetch done r = inr input
  ↔ done = false
    ∧ ∃ j, r = Response StatusOK (Document j) ∧ Json.unmarshal j = inr input.
Proof.
  split.
  - destruct r as [| |status body]; cbn; try done.
    destruct done; [done|].
    destruct (Z.eqb_spec status StatusOK) as [->|]; cbn; [|done].
    destruct body; try done. eauto.
  - intros (-> & j & -> & Hj). done.
Qed.

(** A decoded array has one pointer per element of the upstream array, in
    the same order, and the pointer is nil exactly for the elements that
    are [null]. *)
Theorem unmarshal_keeps_positions (elems : list Json.json) (input : inputResp) :
  Json.unmarshal (Json.JArray elems) = inr input →
  length input = length elems
  ∧ ∀ (k : nat) (j : Json.json), elems !! k = Some j →
      ∃ p, input !! k = Some p
           ∧ Json.element j = Some p
           ∧ (p = None ↔ j = Json.JNull).
Proof.
  unfold Json.unmarshal.
  destruct (mapM Json.element elems) as [l|] eqn:Hm; [|done].
  intros [= <-]. apply mapM_Some in Hm. split.
  - symmetry. by eapply Forall2_length.
  - intros k j Hk.
    destruct (Forall2_lookup_l _ _ _ _ _ Hm Hk) as (p & Hp & He).
    exists p. split; [done|]. split; [done|].
    destruct j; cbn in He; try done.
    + injection He as <-. done.
    + destruct (Json.object members Json.zeroItem); cbn in He; [|done].
      injection He as <-. done.
Qed.

(** ** Runs of one request of the cached variant *)

Section Requests.

Variable jsonMarshal : outputResp → error + string.

Import Cached.

Lemma step_alive (s : server) (a : action) (st : sys) :
  crashed st = false →
  step jsonMarshal s a st
  = match a with
    | Arrive u => Some (arrive s u st)
    | Tick d => if 0 <? d then Some (set_clock (clock st + d) st) else None
    | Fire i => fire s i st
    | Hangup i => hangup i st
    | Orch i => handlerFunc_step jsonMarshal i st
    | Return i rep => handler_request i rep st
    | Work i => handler_step jsonMarshal i st
    end.
Proof. intros H. unfold step. by rewrite H. Qed.

Lemma lookup_set_req_eq (i : nat) (r r' : req) (st : sys) :
  reqs st !! i = Some r → reqs (set_req i r' st) !! i = Some r'.
Proof.
  intros Hr. cbn. apply list_lookup_insert_eq. by eapply lookup_lt_Some.
Qed.

Lemma set_req_twice (i : nat) (r r' : req) (st : sys) :
  set_req i r' (set_req i r st) = set_req i r' st.
Proof. unfold set_req, set_reqs. cbn. by rewrite list_insert_insert_eq. Qed.

(** A miss that the upstream answers before the context is done: from
    [handlerFunc] blocked in the select and the worker inside [s.request],
    a reply 200 whose body decodes and transforms is stored under the key
    of the request and written as the one body of the response, no status
    call is made, the send on [done] releases [handlerFunc], and
    [handlerFunc] returns without writing. *)
Theorem miss_served_from_upstream
        (s : server) (st : sys) (i : nat) (r : req) (j : Json.json)
        (input : inputResp) (output : outputResp) (body : string) :
  crashed st = false →
  reqs st !! i = Some r →
  orch r = OParked →
  work r = Some WFetching →
  ctx_done r = false →
  Json.unmarshal j = inr input →
  transform input = Some output →
  jsonMarshal output = inr body →
  (0 < Lru.size (cache st))%nat →
  ∃ st' r',
    run jsonMarshal s
        [Return i (Response StatusOK (Document j)); Work i; Work i; Work i; Work i; Orch i]
        st = Some st'
    ∧ reqs st' !! i = Some r'
    ∧ orch r' = OReturned
    ∧ work r' = Some WDone
    ∧ w r' = w r ++ [Write body]
    ∧ Lru.Peek (url r) (cache st') = Some (AnyOutputResp output)
    ∧ calls st' = calls st ++ [(url r, inr input)].
Proof.
  intros Hc Hr Ho Hw Hd Hj Ht Hm Hs.
  set (r1 := set_work (Some (WGot input)) r).
  set (st1 := set_calls (calls st ++ [(url r, inr input)]) (set_req i r1 st)).
  set (r2 := set_work (Some (WOut output)) r1).
  set (st2 := set_req i r2 st1).
  set (r3 := set_work (Some (WPushed output)) r2).
  set (st3 := set_cache (push (cache st2) (url r2) (AnyOutputResp output)) (set_req i r3 st2)).
  set (r4 := set_work (Some WSignal) (set_w (w r3 ++ [Write body]) r3)).
  set (st4 := set_req i r4 st3).
  set (r5 := set_work (Some WDone) (set_orch OSignalled r4)).
  set (st5 := set_req i r5 st4).
  set (r6 := set_orch OReturned (set_cancelled r5)).
  set (st6 := set_req i r6 st5).
  assert (H1 : step jsonMarshal s (Return i (Response StatusOK (Document j))) st = Some st1).
  { rewrite step_alive by done. unfold handler_request. rewrite Hr. cbn.
    rewrite Hw. unfold request. rewrite Hd. cbn. by rewrite Hj. }
  assert (Hr1 : reqs st1 !! i = Some r1) by (by eapply lookup_set_req_eq).
  assert (H2 : step jsonMarshal s (Work i) st1 = Some st2).
  { rewrite step_alive by done. unfold handler_step. rewrite Hr1. cbn. by rewrite Ht. }
  assert (Hr2 : reqs st2 !! i = Some r2) by (by eapply lookup_set_req_eq).
  assert (H3 : step jsonMarshal s (Work i) st2 = Some st3).
  { rewrite step_alive by done. unfold handler_step. by rewrite Hr2. }
  assert (Hr3 : reqs st3 !! i = Some r3) by (by eapply (lookup_set_req_eq i r2)).
  assert (H4 : step jsonMarshal s (Work i) st3 = Some st4).
  { rewrite step_alive by done. unfold handler_step. rewrite Hr3. cbn.
    unfold response. by rewrite Hm. }
  assert (Hr4 : reqs st4 !! i = Some r4) by (by eapply lookup_set_req_eq).
  assert (H5 : step jsonMarshal s (Work i) st4 = Some st5).
  { rewrite step_alive by done. unfold handler_step. rewrite Hr4. cbn. by rewrite Ho. }
  assert (Hr5 : reqs st5 !! i = Some r5) by (by eapply lookup_set_req_eq).
  assert (H6 : step jsonMarshal s (Orch i) st5 = Some st6).
  { rewrite step_alive by done. unfold handlerFunc_step. by rewrite Hr5. }
  exists st6, r6. split.
  { cbn [run]. rewrite H1. cbn. rewrite H2. cbn. rewrite H3. cbn.
    rewrite H4. cbn. rewrite H5. cbn. by rewrite H6. }
  split; [by eapply lookup_set_req_eq|].
  repeat split. cbn. by apply Peek_Add.
Qed.

(** A worker whose input holds a nil pointer (a [null] element of the
    upstream array) panics in the loop, outside of any recover. As the
    panic unwinds [handler] the deferred send on [done] still runs, so a
    [handlerFunc] blocked in the select is released, and it can return,
    with no status and no body written. [handler] itself writes nothing
    and stores nothing. Then the process ends, and nothing runs after. *)
Theorem nil_element_ends_process
        (s : server) (st : sys) (i : nat) (r : req) (input : inputResp) (k : nat) :
  crashed st = false →
  reqs st !! i = Some r →
  work r = Some (WGot input) →
  input !! k = Some None →
  ∃ st1 r1 st2,
    step jsonMarshal s (Work i) st = Some st1
    ∧ reqs st1 = <[i := r1]> (reqs st)
    ∧ work r1 = Some WPanicked
    ∧ orch r1 = match orch r with OParked => OSignalled | o => o end
    ∧ w r1 = w r
    ∧ cache st1 = cache st
    ∧ calls st1 = calls st
    ∧ crashed st1 = false
    ∧ (orch r = OParked →
       ∃ st3 r3, step jsonMarshal s (Orch i) st1 = Some st3
                 ∧ reqs st3 !! i = Some r3
                 ∧ orch r3 = OReturned
                 ∧ w r3 = w r)
    ∧ step jsonMarshal s (Work i) st1 = Some st2
    ∧ crashed st2 = true
    ∧ cache st2 = cache st
    ∧ reqs st2 = reqs st1
    ∧ ∀ sched, sched ≠ [] → run jsonMarshal s sched st2 = None.
Proof.
  intros Hc Hr Hw Hk.
  set (r1 := set_work (Some WPanicked)
               match orch r with OParked => set_orch OSignalled r | _ => r end).
  set (st1 := set_req i r1 st).
  assert (H1 : step jsonMarshal s (Work i) st = Some st1).
  { rewrite step_alive by done. unfold handler_step. rewrite Hr. cbn.
    rewrite Hw. cbn. by rewrite (transform_nil_element input k Hk). }
  assert (Hr1 : reqs st1 !! i = Some r1) by (by eapply lookup_set_req_eq).
  assert (Hw1 : work r1 = Some WPanicked) by (unfold r1; by destruct (orch r)).
  assert (H2 : step jsonMarshal s (Work i) st1 = Some (set_crashed st1)).
  { revert Hr1 Hw1. generalize r1. intros x Hx Hwx.
    rewrite step_alive by done. unfold handler_step. rewrite Hx. cbn. by rewrite Hwx. }
  exists st1, r1, (set_crashed st1).
  split; [done|]. split; [done|]. split; [done|].
  split; [unfold r1; destruct (orch r) eqn:E; cbn; by rewrite ?E|].
  split; [unfold r1; by destruct (orch r)|].
  do 3 (split; [done|]).
  split.
  { intros Ho.
    assert (Ho1 : orch r1 = OSignalled) by (unfold r1; by rewrite Ho).
    exists (set_req i (set_orch OReturned (set_cancelled r1)) st1),
           (set_orch OReturned (set_cancelled r1)).
    split.
    { revert Hr1 Ho1. generalize r1. intros x Hx Hox.
      rewrite step_alive by done. unfold handlerFunc_step. rewrite Hx. cbn.
      by rewrite Hox. }
    split; [by eapply lookup_set_req_eq|].
    split; [done|]. unfold r1. by rewrite Ho. }
  split; [done|]. do 3 (split; [done|]). by intros [|a sched].
Qed.

(** With a timeout that is not positive the context is done when it is
    made: a request that misses the cache is answered 504 with the error
    body without any time passing, while its worker is still inside
    [s.request] with a context that is done. *)
Theorem expired_context_answers_504_at_once
        (s : server) (st : sys) (u : string) :
  ctxTimeout s ≤ 0 →
  crashed st = false →
  Lru.Peek u (cache st) = None →
  ∃ st' r,
    run jsonMarshal s
        [Arrive u; Orch (length (reqs st)); Orch (length (reqs st));
         Orch (length (reqs st)); Orch (length (reqs st))] st = Some st'
    ∧ reqs st' !! length (reqs st) = Some r
    ∧ orch r = OReturned
    ∧ work r = Some WFetching
    ∧ ctx_done r = true
    ∧ w r = [HeaderAdd contentType applicationJSON;
             WriteHeader StatusGatewayTimeout; Write internalErr]
    ∧ clock st' = clock st
    ∧ cache st' = cache st.
Proof.
  intros Ht Hc Hp.
  set (n := length (reqs st)).
  set (r0 := mkReq u (clock st) true false OStart None []).
  assert (Hle : (ctxTimeout s <=? 0) = true) by (by apply Z.leb_le).
  set (st0 := set_reqs (reqs st ++ [r0]) st).
  assert (H0 : step jsonMarshal s (Arrive u) st = Some st0).
  { rewrite step_alive by done. unfold arrive. by rewrite Hle. }
  assert (Hr0 : reqs st0 !! n = Some r0).
  { cbn. rewrite lookup_app_r by done. by rewrite Nat.sub_diag. }
  set (r1 := set_orch OSpawned (set_work (Some WFetching)
               (set_w [HeaderAdd contentType applicationJSON] r0))).
  set (st1 := set_req n r1 st0).
  assert (Hget : Lru.Get u (cache st) = (None, cache st)).
  { unfold Lru.Get. unfold Lru.Peek in Hp. by rewrite Hp. }
  assert (H1 : step jsonMarshal s (Orch n) st0 = Some st1).
  { rewrite step_alive by done. unfold handlerFunc_step. rewrite Hr0. cbn.
    unfold pullAndResponse. cbn. rewrite Hget. cbn. by destruct st. }
  assert (Hr1 : reqs st1 !! n = Some r1) by (by eapply lookup_set_req_eq).
  set (r2 := set_orch OTimedOut r1).
  assert (H2 : step jsonMarshal s (Orch n) st1 = Some (set_req n r2 st1)).
  { rewrite step_alive by done. unfold handlerFunc_step. by rewrite Hr1. }
  assert (Hr2 : reqs (set_req n r2 st1) !! n = Some r2) by (by eapply lookup_set_req_eq).
  set (r3 := set_orch OTimedOutHdr (set_w (w r2 ++ [WriteHeader StatusGatewayTimeout]) r2)).
  assert (H3 : step jsonMarshal s (Orch n) (set_req n r2 st1)
               = Some (set_req n r3 (set_req n r2 st1))).
  { rewrite step_alive by done. unfold handlerFunc_step. by rewrite Hr2. }
  assert (Hr3 : reqs (set_req n r3 (set_req n r2 st1)) !! n = Some r3)
    by (by eapply lookup_set_req_eq).
  set (r4 := set_orch OReturned (set_cancelled (set_w (w r3 ++ [Write internalErr]) r3))).
  assert (H4 : step jsonMarshal s (Orch n) (set_req n r3 (set_req n r2 st1))
               = Some (set_req n r4 (set_req n r3 (set_req n r2 st1)))).
  { rewrite step_alive by done. unfold handlerFunc_step. by rewrite Hr3. }
  eexists _, r4. split.
  { cbn [run]. rewrite H0. cbn. fold n. rewrite H1. cbn. rewrite H2. cbn.
    rewrite H3. cbn. by rewrite H4. }
  split; [by eapply lookup_set_req_eq|]. repeat split.
Qed.

End Requests.

(** ** Invariants of the cached variant *)

Lemma body_writes_app (l l' : writer) :
  body_writes (l ++ l') = (body_writes l + body_writes l')%nat.
Proof. unfold body_writes. by rewrite filter_app, length_app. Qed.

Lemma status_writes_app (l l' : writer) :
  status_writes (l ++ l') = (status_writes l + status_writes l')%nat.
Proof. unfold status_writes. by rewrite filter_app, length_app. Qed.

Lemma writes_of_one_call (c : wcall) :
  body_writes [c] = (if is_body c then 1 else 0)%nat
  ∧ status_writes [c] = (if is_status c then 1 else 0)%nat.
Proof. by destruct c. Qed.

Section Reachable.

Variable jsonMarshal : outputResp → error + string.

Import Cached.

Local Arguments body_writes : simpl never.
Local Arguments status_writes : simpl never.

Local Ltac tally :=
  cbn;
  rewrite ?(proj1 (writes_of_one_call _)), ?(proj2 (writes_of_one_call _));
  change (body_writes []) with 0%nat; change (status_writes []) with 0%nat;
  cbn; lia.

(** A property kept by every step holds after every schedule. *)
Lemma run_keeps (P : sys → Prop) (s : server) :
  (∀ a st st', step jsonMarshal s a st = Some st' → P st → P st') →
  ∀ sched st st', run jsonMarshal s sched st = Some st' → P st → P st'.
Proof.
  intros Hstep. induction sched as [|a sched IH]; intros st st'; cbn [run].
  - by intros [= <-].
  - destruct (step jsonMarshal s a st) as [st1|] eqn:Ha; [|done]. cbn.
    intros Hrun HP. eapply IH; [done|]. by eapply Hstep.
Qed.

Lemma writer_ok_extend (r r' : req) (x : writer) :
  orch r ≠ OStart →
  orch r' ≠ OStart →
  w r' = w r ++ x →
  (body_writes x + orch_bodies (orch r) + work_bodies (work r)
   ≤ orch_bodies (orch r') + work_bodies (work r'))%nat →
  (status_writes x + orch_statuses (orch r) ≤ orch_statuses (orch r'))%nat →
  Forall only_504 x →
  writer_ok r → writer_ok r'.
Proof.
  intros Ho Ho' Hw Hb Hs Hx. unfold writer_ok.
  destruct (orch r) eqn:E; [done|..];
    intros (rest & Hr & Hrb & Hrs & Hrf);
    (destruct (orch r') eqn:E'; [done|..]);
    exists (rest ++ x); rewrite Hw, Hr, body_writes_app, status_writes_app;
    (split; [done|]); cbn in *; (split; [lia|]); (split; [lia|]);
    by apply Forall_app.
Qed.

Lemma step_writer_ok (s : server) (a : action) (st st' : sys) :
  step jsonMarshal s a st = Some st' →
  Forall writer_ok (reqs st) → Forall writer_ok (reqs st').
Proof.
  unfold step. destruct (crashed st); [done|].
  destruct a as [u|d|i|i|i|i rep|i].
  - intros [= <-] H. cbn. apply Forall_app. split; [done|].
    by repeat constructor.
  - destruct (0 <? d); [|done]. by intros [= <-].
  - unfold fire. destruct (reqs st !! i) as [r|] eqn:Hr; [|done]. cbn.
    destruct (ctx_done r); [done|]. destruct (_ <=? _); [|done].
    intros [= <-] H. cbn. apply Forall_insert; [done|].
    pose proof (Forall_lookup_1 _ _ _ _ H Hr) as Hok.
    unfold wake. cbn. destruct (orch r) eqn:E;
      unfold writer_ok in *; cbn; by rewrite E in *.
  - unfold hangup. destruct (reqs st !! i) as [r|] eqn:Hr; [|done]. cbn.
    intros Hst H.
    pose proof (Forall_lookup_1 _ _ _ _ H Hr) as Hok.
    assert (st' = set_req i (wake (set_cancelled r)) st) as ->
      by (destruct (orch r), (cancelled r); congruence).
    cbn. apply Forall_insert; [done|].
    unfold wake. cbn. destruct (orch r) eqn:E;
      unfold writer_ok in *; cbn; by rewrite E in *.
  - unfold handlerFunc_step. destruct (reqs st !! i) as [r|] eqn:Hr; [|done]. cbn.
    intros Hst H.
    pose proof (Forall_lookup_1 _ _ _ _ H Hr) as Hok.
    destruct (orch r) eqn:E; try done.
    + unfold writer_ok in Hok. rewrite E in Hok. destruct Hok as [Hw Hk].
      unfold pullAndResponse in Hst.
      destruct (Lru.Get (url r) (cache st)) as [val c].
      rewrite Hw in Hst. cbn in Hst.
      destruct val as [[data| | |]|]; injection Hst as <-; cbn;
        (apply Forall_insert; [done|]); unfold writer_ok; cbn;
        try (exists []; repeat split; cbn; try tally; by constructor).
      unfold response. destruct (jsonMarshal data).
      * exists []. repeat split; cbn; try tally. constructor.
      * eexists [_]. rewrite Hk. repeat split; cbn; try tally. by repeat constructor.
    + injection Hst as <-. cbn. apply Forall_insert; [done|].
      eapply (writer_ok_extend r _ []); try done; cbn; rewrite ?E, ?app_nil_r; try done;
        destruct (ctx_done r); try done; tally.
    + injection Hst as <-. cbn. apply Forall_insert; [done|].
      eapply (writer_ok_extend r _ [_]); try done; cbn; rewrite ?E; try done; try tally.
      by repeat constructor.
    + injection Hst as <-. cbn. apply Forall_insert; [done|].
      eapply (writer_ok_extend r _ [_]); try done; cbn; rewrite ?E; try done; try tally.
      by repeat constructor.
    + injection Hst as <-. cbn. apply Forall_insert; [done|].
      eapply (writer_ok_extend r _ []); try done; cbn; rewrite ?E, ?app_nil_r; try done; tally.
  - unfold handler_request. destruct (reqs st !! i) as [r|] eqn:Hr; [|done]. cbn.
    destruct (work r) as [[]|] eqn:Hk; try done. intros [= <-] H.
    pose proof (Forall_lookup_1 _ _ _ _ H Hr) as Hok.
    cbn. apply Forall_insert; [done|].
    assert (Ho : orch r ≠ OStart).
    { intros E. unfold writer_ok in Hok. rewrite E in Hok. destruct Hok. congruence. }
    eapply (writer_ok_extend r _ []); try done; cbn; rewrite ?Hk, ?app_nil_r; try done.
    destruct (request _ _); tally.
  - unfold handler_step. destruct (reqs st !! i) as [r|] eqn:Hr; [|done]. cbn.
    destruct (work r) as [p|] eqn:Hk; [|done]. cbn. intros Hst H.
    pose proof (Forall_lookup_1 _ _ _ _ H Hr) as Hok.
    assert (Ho : orch r ≠ OStart).
    { intros E. unfold writer_ok in Hok. rewrite E in Hok. destruct Hok. congruence. }
    destruct p as [|e|input|output|output| | |]; try done;
      [ | | | | |injection Hst as <-; done].
    + injection Hst as <-. cbn. apply Forall_insert; [done|].
      eapply (writer_ok_extend r _ [_]); try done; cbn; rewrite ?Hk; try done; try tally.
      by repeat constructor.
    + destruct (transform input); injection Hst as <-;
        cbn; (apply Forall_insert; [done|]).
      * eapply (writer_ok_extend r _ []); try done; cbn; rewrite ?Hk, ?app_nil_r; try done; tally.
      * destruct (orch r) eqn:E; try done;
          eapply (writer_ok_extend r _ []); try done; cbn;
          rewrite ?E, ?Hk, ?app_nil_r; try done; tally.
    + injection Hst as <-. cbn. apply Forall_insert; [done|].
      eapply (writer_ok_extend r _ []); try done; cbn; rewrite ?Hk, ?app_nil_r; try done; tally.
    + injection Hst as <-. cbn. apply Forall_insert; [done|].
      unfold response. destruct (jsonMarshal output).
      * eapply (writer_ok_extend r _ []); try done; cbn; rewrite ?Hk, ?app_nil_r; try done; tally.
      * eapply (writer_ok_extend r _ [_]); try done; cbn; rewrite ?Hk; try done; try tally.
        by repeat constructor.
    + injection Hst as <-. cbn. apply Forall_insert; [done|].
      destruct (orch r) eqn:E; try done;
        eapply (writer_ok_extend r _ []); try done; cbn;
        rewrite ?E, ?Hk, ?app_nil_r; try done; tally.
Qed.

(** In every state the process can reach, the writer of a request has
    received at most two bodies and at most one status, the only status
    ever written is 504 (never 500), and the first call on a writer is the
    one that adds the JSON content type. *)
Theorem writers_stay_bounded
        (cfg : config) (sched : list action) (st0 st : sys) (i : nat) (r : req) :
  boot cfg = Some st0 →
  run jsonMarshal (newServer cfg) sched st0 = Some st →
  reqs st !! i = Some r →
  (body_writes (w r) ≤ 2)%nat
  ∧ (status_writes (w r) ≤ 1)%nat
  ∧ (∀ code, WriteHeader code ∈ w r → code = StatusGatewayTimeout)
  ∧ (w r = [] ∨ ∃ rest, w r = HeaderAdd contentType applicationJSON :: rest).
Proof.
  intros Hb Hrun Hr.
  assert (H0 : Forall writer_ok (reqs st0)).
  { unfold boot in Hb. destruct (Lru.New _); [|done]. injection Hb as <-. constructor. }
  pose proof (run_keeps (λ st, Forall writer_ok (reqs st)) _
                (step_writer_ok _) sched st0 st Hrun H0) as H.
  pose proof (Forall_lookup_1 _ _ _ _ H Hr) as Hok. clear - Hok.
  unfold writer_ok in Hok.
  destruct (orch r) eqn:E.
  { destruct Hok as [-> _]. repeat split; try (compute; lia); auto.
    intros code Hin. by apply elem_of_nil in Hin. }
  all: destruct Hok as (rest & -> & Hb & Hs & Hf);
    change (HeaderAdd contentType applicationJSON :: rest)
      with ([HeaderAdd contentType applicationJSON] ++ rest);
    rewrite body_writes_app, status_writes_app;
    rewrite (proj1 (writes_of_one_call _)), (proj2 (writes_of_one_call _));
    (split; [destruct (work r) as [[]|]; cbn in *; lia|]);
    (split; [cbn in *; lia|]);
    (split; [|right; eauto]);
    intros code [Hin|Hin]%elem_of_app;
    [apply list_elem_of_singleton in Hin; done
    |rewrite Forall_forall in Hf; exact (Hf _ Hin)].
Qed.

End Reachable.

(** ** A worker that outlives its [handlerFunc] *)

Section Outlived.

Variable jsonMarshal : outputResp → error + string.

Import Cached.

Lemma step_returned_ok (s : server) (a : action) (st st' : sys) :
  step jsonMarshal s a st = Some st' →
  Forall returned_ok (reqs st) → Forall returned_ok (reqs st').
Proof.
  unfold step. destruct (crashed st); [done|].
  destruct a as [u|d|i|i|i|i rep|i].
  - intros [= <-] H. cbn. apply Forall_app. split; [done|].
    constructor; [|constructor]. by intros ?.
  - destruct (0 <? d); [|done]. by intros [= <-].
  - unfold fire. destruct (reqs st !! i) as [r|] eqn:Hr; [|done]. cbn.
    destruct (ctx_done r); [done|]. destruct (_ <=? _); [|done].
    intros [= <-] H. cbn. apply Forall_insert; [done|].
    pose proof (Forall_lookup_1 _ _ _ _ H Hr) as Hok.
    unfold returned_ok, wake in *. cbn.
    destruct (orch r) eqn:E; cbn; rewrite ?E; done.
  - unfold hangup. destruct (reqs st !! i) as [r|] eqn:Hr; [|done]. cbn.
    intros Hst H.
    assert (st' = set_req i (wake (set_cancelled r)) st) as ->
      by (destruct (orch r), (cancelled r); congruence).
    cbn. apply Forall_insert; [done|].
    unfold returned_ok, wake. cbn.
    destruct (orch r) eqn:E; cbn; rewrite ?E; done.
  - unfold handlerFunc_step. destruct (reqs st !! i) as [r|] eqn:Hr; [|done]. cbn.
    intros Hst H.
    destruct (orch r) eqn:E; try done;
      try (injection Hst as <-; cbn; (apply Forall_insert; [done|]);
           unfold returned_ok; cbn; by destruct (ctx_done r)).
    unfold pullAndResponse in Hst.
    destruct (Lru.Get (url r) (cache st)) as [val c].
    destruct val as [[]|]; injection Hst as <-; cbn;
      (apply Forall_insert; [done|]); unfold returned_ok; by cbn.
  - unfold handler_request. destruct (reqs st !! i) as [r|] eqn:Hr; [|done]. cbn.
    destruct (work r) as [[]|] eqn:Hk; try done. intros [= <-] H.
    cbn. apply Forall_insert; [done|]. exact (Forall_lookup_1 _ _ _ _ H Hr).
  - unfold handler_step. destruct (reqs st !! i) as [r|] eqn:Hr; [|done]. cbn.
    destruct (work r) as [p|] eqn:Hk; [|done]. cbn. intros Hst H.
    pose proof (Forall_lookup_1 _ _ _ _ H Hr) as Hok.
    destruct p as [|e|input|output|output| | |]; try done;
      try (injection Hst as <-; cbn; try done;
           (apply Forall_insert; [done|]); exact Hok).
    + destruct (transform input); injection Hst as <-; cbn;
        (apply Forall_insert; [done|]); [exact Hok|].
      unfold returned_ok in *. destruct (orch r) eqn:E; cbn; rewrite ?E; try done.
    + injection Hst as <-. cbn. apply Forall_insert; [done|].
      unfold returned_ok in *. destruct (orch r) eqn:E; cbn; rewrite ?E; try done.
Qed.

(** In every state the process can reach, a worker that is still inside
    [s.request] when its [handlerFunc] has returned finds the context
    cancelled (by the deferred [cancel()]): its call fails whatever the
    upstream answers, and its error path writes the error body on the
    writer of the request that has been answered. *)
Theorem returned_handler_cancels_worker
        (cfg : config) (sched : list action) (st0 st : sys) (i : nat) (r : req)
        (rep : reply) :
  boot cfg = Some st0 →
  run jsonMarshal (newServer cfg) sched st0 = Some st →
  crashed st = false →
  reqs st !! i = Some r →
  orch r = OReturned →
  work r = Some WFetching →
  ctx_done r = true
  ∧ (∃ e, request (ctx_done r) rep = inl e)
  ∧ ∃ st' r',
      run jsonMarshal (newServer cfg) [Return i rep; Work i] st = Some st'
      ∧ reqs st' !! i = Some r'
      ∧ orch r' = OReturned
      ∧ w r' = w r ++ [Write internalErr].
Proof.
  intros Hb Hrun Hc Hr Ho Hw.
  assert (H0 : Forall returned_ok (reqs st0)).
  { unfold boot in Hb. destruct (Lru.New _); [|done]. injection Hb as <-. constructor. }
  pose proof (run_keeps jsonMarshal (λ st, Forall returned_ok (reqs st)) _
                (step_returned_ok _) sched st0 st Hrun H0) as H.
  pose proof (Forall_lookup_1 _ _ _ _ H Hr Ho) as Hcan.
  assert (Hd : ctx_done r = true).
  { unfold ctx_done. rewrite Hcan. by destruct (expired r). }
  split; [done|]. split.
  { rewrite Hd. unfold request. apply fetch_done_fails. }
  by apply late_worker_still_writes.
Qed.

End Outlived.

(** ** The cache stays within its size, the upstream is called once *)

Section LruBound.

Context {V : Type}.
Implicit Types (c : Lru.t V) (l : list (string * V)).

Lemma remove_keys_sublist key l : (Lru.remove key l).*1 `sublist_of` l.*1.
Proof. unfold Lru.remove. apply fmap_sublist, sublist_filter. Qed.

Lemma removelast_sublist {A : Type} (l : list A) : removelast l `sublist_of` l.
Proof. rewrite removelast_firstn_len. apply sublist_take. Qed.

Lemma remove_key_gone key l : key ∉ (Lru.remove key l).*1.
Proof.
  unfold Lru.remove. intros ([k v] & Hk & Hin)%list_elem_of_fmap.
  apply list_elem_of_filter in Hin as [Hne _]. cbn in *. congruence.
Qed.

Lemma lookup_None_fresh key l : Lru.lookup key l = None → key ∉ l.*1.
Proof.
  unfold Lru.lookup. induction l as [|[k x] l IH]; cbn; [intros _ H; by apply elem_of_nil in H|].
  case_bool_decide as Hk; cbn in *; [done|].
  intros H [Heq|Hin]%elem_of_cons; [congruence|]. by apply IH.
Qed.

Lemma remove_shorter key l v :
  Lru.lookup key l = Some v → (S (length (Lru.remove key l)) ≤ length l)%nat.
Proof.
  intros H%lookup_elem. unfold Lru.remove.
  apply (length_filter_lt (λ kv : string * V, kv.1 ≠ key) l (key, v)); [done|].
  cbn. by intros ?.
Qed.

Lemma Get_ok key c : lru_ok c → lru_ok (Lru.Get key c).2.
Proof.
  intros [Hlen Hnd]. unfold Lru.Get.
  destruct (Lru.lookup key (Lru.items c)) as [v|] eqn:E; [|done].
  split; cbn.
  - pose proof (remove_shorter key _ v E). lia.
  - apply NoDup_cons. split; [apply remove_key_gone|].
    eapply sublist_NoDup; [exact Hnd|apply remove_keys_sublist].
Qed.

Lemma Add_ok key v c : lru_ok c → lru_ok (Lru.Add key v c).
Proof.
  intros [Hlen Hnd]. unfold Lru.Add.
  destruct (Lru.lookup key (Lru.items c)) as [x|] eqn:E.
  - split; cbn.
    + pose proof (remove_shorter key _ x E). lia.
    + apply NoDup_cons. split; [apply remove_key_gone|].
      eapply sublist_NoDup; [exact Hnd|apply remove_keys_sublist].
  - assert (Hall : NoDup ((key, v) :: Lru.items c).*1).
    { cbn. apply NoDup_cons. split; [by apply lookup_None_fresh|done]. }
    cbn [Lru.items Lru.size].
    destruct (Nat.ltb_spec (Lru.size c) (length ((key, v) :: Lru.items c))) as [Hlt|Hge].
    + split.
      * cbn [Lru.items Lru.size]. rewrite removelast_firstn_len, length_take. cbn in *. lia.
      * cbn [Lru.items]. eapply sublist_NoDup; [exact Hall|].
        apply fmap_sublist, removelast_sublist.
    + split; cbn [Lru.items Lru.size]; [lia|done].
Qed.

End LruBound.

Section Counting.

Variable jsonMarshal : outputResp → error + string.

Import Cached.

(** Every step leaves the cache alone, or looks a key up, or adds one. *)
Lemma step_cache (s : server) (a : action) (st st' : sys) :
  step jsonMarshal s a st = Some st' →
  cache st' = cache st
  ∨ (∃ key, cache st' = (Lru.Get key (cache st)).2)
  ∨ (∃ key v, cache st' = Lru.Add key v (cache st)).
Proof.
  unfold step. destruct (crashed st); [done|].
  destruct a as [u|d|i|i|i|i rep|i].
  - intros [= <-]. by left.
  - destruct (0 <? d); [|done]. intros [= <-]. by left.
  - unfold fire. destruct (reqs st !! i) as [r|]; [|done]. cbn.
    destruct (ctx_done r); [done|]. destruct (_ <=? _); [|done].
    intros [= <-]. by left.
  - unfold hangup. destruct (reqs st !! i) as [r|]; [|done]. cbn.
    destruct (orch r), (cancelled r); try done; intros [= <-]; by left.
  - unfold handlerFunc_step. destruct (reqs st !! i) as [r|]; [|done]. cbn.
    destruct (orch r); try done; try (intros [= <-]; by left).
    unfold pullAndResponse.
    destruct (Lru.Get (url r) (cache st)) as [val c] eqn:Hget.
    intros H. right. left. exists (url r). rewrite Hget.
    destruct val as [[]|]; by injection H as <-.
  - unfold handler_request. destruct (reqs st !! i) as [r|]; [|done]. cbn.
    destruct (work r) as [[]|]; try done. intros [= <-]. by left.
  - unfold handler_step. destruct (reqs st !! i) as [r|]; [|done]. cbn.
    destruct (work r) as [[]|]; try done; cbn;
      try (intros [= <-]; by left).
    + destruct (transform input); intros [= <-]; by left.
    + intros [= <-]. right. right. by eexists _, _.
Qed.

(** In every state the process can reach, the cache holds at most
    [cfg.CacheSize] entries and no key twice. *)
Theorem cache_within_size
        (cfg : config) (sched : list action) (st0 st : sys) :
  boot cfg = Some st0 →
  run jsonMarshal (newServer cfg) sched st0 = Some st →
  (length (Lru.items (cache st)) ≤ Z.to_nat (CacheSize cfg))%nat
  ∧ NoDup (Lru.items (cache st)).*1.
Proof.
  intros Hb Hrun.
  set (P := λ st : sys, lru_ok (cache st) ∧ Lru.size (cache st) = Z.to_nat (CacheSize cfg)).
  assert (H0 : P st0).
  { unfold boot, Lru.New in Hb. destruct (_ <=? _); [done|]. injection Hb as <-.
    repeat split; cbn; [lia|constructor]. }
  assert (Hstep : ∀ a st st',
             step jsonMarshal (newServer cfg) a st = Some st' → P st → P st').
  { intros a s1 s2 Ha [Hok Hsz]. unfold P.
    destruct (step_cache _ _ _ _ Ha) as [->|[[key ->]|(key & v & ->)]].
    - done.
    - split; [by apply Get_ok|]. unfold Lru.Get. by destruct (Lru.lookup _ _).
    - split; [by apply Add_ok|]. unfold Lru.Add. by destruct (Lru.lookup _ _). }
  destruct (run_keeps jsonMarshal P _ Hstep sched st0 st Hrun H0) as [[Hlen Hnd] Hsz].
  rewrite <- Hsz. done.
Qed.

Lemma count_called (l : list req) (i : nat) (x y : req) :
  l !! i = Some x →
  (length (filter (λ r, called r = true) (<[i:=y]> l)) + (if called x then 1 else 0)
   = length (filter (λ r, called r = true) l) + (if called y then 1 else 0))%nat.
Proof.
  intros Hi.
  rewrite <- (take_drop_middle l i x Hi) at 2.
  rewrite insert_take_drop by (by eapply lookup_lt_Some).
  rewrite !filter_app, !length_app, !filter_cons.
  destruct (decide (called x = true)) as [->|Hx], (decide (called y = true)) as [->|Hy];
    try apply not_true_is_false in Hx; try apply not_true_is_false in Hy;
    rewrite ?Hx, ?Hy; cbn; lia.
Qed.

Lemma step_calls (s : server) (a : action) (st st' : sys) :
  step jsonMarshal s a st = Some st' → calls_ok st → calls_ok st'.
Proof.
  intros Hstep [Hn Hok]. split; [|by eapply step_writer_ok].
  revert Hstep. unfold step. destruct (crashed st); [done|].
  assert (Hsame : ∀ i r r', reqs st !! i = Some r → called r' = called r →
            length (filter (λ r, called r = true) (<[i:=r']> (reqs st)))
            = length (filter (λ r, called r = true) (reqs st))).
  { intros i r r' Hr Hc.
    pose proof (count_called (reqs st) i r r' Hr) as Hx.
    rewrite Hc in Hx. lia. }
  destruct a as [u|d|i|i|i|i rep|i].
  - intros [= <-]. cbn [reqs arrive set_reqs calls].
    rewrite filter_app, length_app, filter_cons, filter_nil.
    case_decide as Hd; [by cbn in Hd|]. cbn. lia.
  - destruct (0 <? d); [|done]. by intros [= <-].
  - unfold fire. destruct (reqs st !! i) as [r|] eqn:Hr; [|done]. cbn.
    destruct (ctx_done r); [done|]. destruct (_ <=? _); [|done].
    intros [= <-]. cbn. rewrite (Hsame i r); [done|done|].
    unfold wake. cbn. by destruct (orch r).
  - unfold hangup. destruct (reqs st !! i) as [r|] eqn:Hr; [|done]. cbn.
    intros Hst.
    assert (st' = set_req i (wake (set_cancelled r)) st) as ->
      by (destruct (orch r), (cancelled r); congruence).
    cbn. rewrite (Hsame i r); [done|done|].
    unfold wake. cbn. by destruct (orch r).
  - unfold handlerFunc_step. destruct (reqs st !! i) as [r|] eqn:Hr; [|done]. cbn.
    intros Hst.
    destruct (orch r) eqn:E; try done;
      try (injection Hst as <-; cbn; by rewrite (Hsame i r)).
    pose proof (Forall_lookup_1 _ _ _ _ Hok Hr) as Hr_ok.
    unfold writer_ok in Hr_ok. rewrite E in Hr_ok. destruct Hr_ok as [_ Hk].
    unfold pullAndResponse in Hst.
    destruct (Lru.Get (url r) (cache st)) as [val c].
    destruct val as [[]|]; injection Hst as <-; cbn;
      rewrite (Hsame i r); try done; unfold called; cbn; by rewrite Hk.
  - unfold handler_request. destruct (reqs st !! i) as [r|] eqn:Hr; [|done]. cbn.
    destruct (work r) as [[]|] eqn:Hk; try done. intros [= <-]. cbn.
    rewrite length_app. cbn.
    pose proof (count_called (reqs st) i r
                  (set_work (Some match request (ctx_done r) rep with
                                  | inl e => WFailed e
                                  | inr input => WGot input
                                  end) r) Hr) as Hx.
    assert (Hc1 : called r = false) by (unfold called; by rewrite Hk).
    rewrite Hc1 in Hx.
    match type of Hx with context [called ?x] =>
      assert (Hc2 : called x = true)
        by (unfold called; cbn; by destruct (request (ctx_done r) rep))
    end.
    rewrite Hc2 in Hx. lia.
  - unfold handler_step. destruct (reqs st !! i) as [r|] eqn:Hr; [|done]. cbn.
    destruct (work r) as [p|] eqn:Hk; [|done]. cbn. intros Hst.
    destruct p as [|e|input|output|output| | |]; try done;
      try (injection Hst as <-; cbn; rewrite (Hsame i r); try done;
           unfold called; cbn; by rewrite Hk);
      try (injection Hst as <-; done).
    destruct (transform input); injection Hst as <-;
      cbn; rewrite (Hsame i r); try done; unfold called; cbn; rewrite Hk;
      try done; by destruct (orch r).
Qed.

(** No retry: in every state the process can reach, [request] has
    completed exactly once for each request whose worker has come back
    from it, hence at most once per incoming request. *)
Theorem request_called_once_per_miss
        (cfg : config) (sched : list action) (st0 st : sys) :
  boot cfg = Some st0 →
  run jsonMarshal (newServer cfg) sched st0 = Some st →
  length (calls st) = length (filter (λ r, called r = true) (reqs st))
  ∧ (length (calls st) ≤ length (reqs st))%nat.
Proof.
  intros Hb Hrun.
  assert (H0 : calls_ok st0).
  { unfold boot in Hb. destruct (Lru.New _); [|done]. injection Hb as <-.
    split; [done|constructor]. }
  destruct (run_keeps jsonMarshal calls_ok _ (step_calls _) sched st0 st Hrun H0) as [Hn _].
  split; [done|]. rewrite Hn. apply length_filter.
Qed.

End Counting.

(** ** The cache, stored into and read back *)

Section RoundTrip.

Variable jsonMarshal : outputResp → error + string.

Import Cached.

(** What [push] stores under a key, [pullAndResponse] finds for that key
    right after: it reports a hit, its one call on the writer is the
    [Write] of the encoding of that collection (no call when
    [json.Marshal] fails), and the entry stays. *)
Theorem push_then_pull_hits (c : Lru.t any) (key : string) (o : outputResp) (x : writer) :
  (0 < Lru.size c)%nat →
  ∃ c', pullAndResponse jsonMarshal (push c key (AnyOutputResp o)) key x
        = (true,
           x ++ match jsonMarshal o with
                | inr body => [Write body]
                | inl _ => []
                end,
           c')
        ∧ Lru.Peek key c' = Some (AnyOutputResp o).
Proof.
  intros Hs. unfold pullAndResponse.
  pose proof (Get_Peek key (push c key (AnyOutputResp o))) as H1.
  pose proof (Peek_Get key (push c key (AnyOutputResp o))) as H2.
  destruct (Lru.Get key (push c key (AnyOutputResp o))) as [val c'].
  cbn in H1, H2. unfold push in H1, H2. rewrite Peek_Add in H1, H2 by done.
  rewrite H1. exists c'. split; [|done].
  unfold response. destruct (jsonMarshal o); [by rewrite app_nil_r|done].
Qed.

End RoundTrip.

(** ** The variants without the cache *)

Section Sequential.

Variable jsonMarshal : outputResp → error + string.

(** The variant of [adviser.go], end to end: for an upstream that answers
    within the timeout with status 200 and an array of objects whose
    members the decoder takes, the response is the content type followed
    by one body, the encoding of the items made from [code],
    [country_name] and [name] of each object, in order. *)
Theorem Logged_serves_transformed_body
        (s : Logged.server) (latency : Z) (fired : bool)
        (objs : list (list (string * Json.json))) (body : string) :
  latency < mul64 (Logged.reqTimeout s) Millisecond →
  0 < mul64 (Logged.reqTimeout s) Millisecond →
  Forall (λ members, forallb Json.tolerated members = true) objs →
  jsonMarshal ((λ members, Some (makeItem (Json.view members))) <$> objs) = inr body →
  Logged.handlerFunc jsonMarshal s latency fired
    (Response StatusOK (Document (Json.JArray (Json.JObject <$> objs))))
  = Some [HeaderAdd contentType applicationJSON; Write body].
Proof.
  intros Hlat Hpos Htol Hm.
  unfold Logged.handlerFunc, Logged.request.
  destruct (Z.leb_spec (mul64 (Logged.reqTimeout s) Millisecond) 0); [lia|].
  destruct (Z.leb_spec (mul64 (Logged.reqTimeout s) Millisecond) latency); [lia|].
  rewrite andb_false_r.
  cbn. rewrite elements_tolerated by done.
  pose proof (transform_total (Json.view <$> objs)) as Ht.
  rewrite <- !list_fmap_compose in Ht.
  change (transform ((λ members, Some (Json.view members)) <$> objs)
          = Some ((λ members, Some (makeItem (Json.view members))) <$> objs)) in Ht.
  rewrite Ht. cbn. by rewrite Hm.
Qed.

(** In the variants without the cache, once the timer of the context has
    fired before the exchange with the upstream completes, which it can
    from the deadline on, the request fails whatever the upstream would
    answer: the plain variant writes status 504 and no body, the variant
    of [adviser.go] status 500 and the error body. *)
Theorem slow_upstream_fails_without_cache
        (latency timeout : Z) (rep : reply) :
  timeout ≤ latency →
  (∀ s, mul64 (Plain.reqTimeout s) Millisecond = timeout →
        Plain.handlerFunc jsonMarshal s latency true rep
        = Some [WriteHeader StatusGatewayTimeout])
  ∧ (∀ s, mul64 (Logged.reqTimeout s) Millisecond = timeout →
          Logged.handlerFunc jsonMarshal s latency true rep
          = Some [HeaderAdd contentType applicationJSON;
                  WriteHeader StatusInternalServerError; Write internalErr]).
Proof.
  intros Hlat.
  assert (Hdone : (timeout <=? 0) || (true && (timeout <=? latency)) = true).
  { apply orb_true_iff. right. by apply Z.leb_le. }
  split; intros s Hs.
  - unfold Plain.handlerFunc, Plain.request. rewrite Hs, Hdone.
    by destruct (fetch_done_fails rep) as [e ->].
  - unfold Logged.handlerFunc, Logged.request. rewrite Hs, Hdone.
    by destruct (fetch_done_fails rep) as [e ->].
Qed.

End Sequential.

(** ** The deadline beyond the range of the doubled conversion *)

(** A [RequestTimeout] from 9223373 to 18446744 milliseconds overflows
    [int64] in the second multiplication by [time.Millisecond]: the
    duration given to the context is negative. *)
Theorem overlong_timeout_wraps (cfg : Cached.config) :
  9223373 ≤ Cached.RequestTimeout cfg ≤ 18446744 →
  Cached.ctxTimeout (Cached.newServer cfg)
  = Cached.RequestTimeout cfg * Millisecond * Millisecond - 18446744073709551616
  ∧ Cached.ctxTimeout (Cached.newServer cfg) < 0.
Proof.
  intros H.
  assert (Cached.ctxTimeout (Cached.newServer cfg)
          = Cached.RequestTimeout cfg * Millisecond * Millisecond - 18446744073709551616)
    as ->; [|unfold Millisecond; lia].
  unfold Cached.ctxTimeout, Cached.newServer, mul64, Millisecond.
  cbn [Cached.reqTimeout].
  rewrite (int64_small (Cached.RequestTimeout cfg)) by lia.
  rewrite (int64_small (Cached.RequestTimeout cfg * 1000000)) by lia.
  unfold int64.
  change (2 ^ 63) with 9223372036854775808.
  change (2 ^ 64) with 18446744073709551616.
  rewrite <- (Z.mod_add _ (-1) 18446744073709551616) by lia.
  rewrite Z.mod_small; lia.
Qed.

(** ** Eviction and recency *)

Section Recency.

Context {V : Type}.
Implicit Types (c : Lru.t V) (l : list (string * V)).

Lemma add_to_full_cache_evicts_oldest key v c l (oldest : string * V) :
  Lru.lookup key (Lru.items c) = None →
  Lru.items c = l ++ [oldest] →
  (length (Lru.items c) = Lru.size c)%nat →
  Lru.items (Lru.Add key v c) = (key, v) :: l.
Proof.
  intros Hnew Hitems Hfull. unfold Lru.Add. rewrite Hnew. cbn [Lru.items].
  destruct (Nat.ltb_spec (Lru.size c) (length ((key, v) :: Lru.items c))) as [_|Hge];
    [|cbn in Hge; lia].
  rewrite Hitems. change ((key, v) :: l ++ [oldest]) with (((key, v) :: l) ++ [oldest]).
  apply removelast_last.
Qed.

Lemma looked_up_entry_survives_next_add key v key' v' c :
  Lru.Peek key c = Some v →
  key' ≠ key →
  (2 ≤ Lru.size c)%nat →
  Lru.Peek key (Lru.Add key' v' (Lru.Get key c).2) = Some v.
Proof.
  intros Hp Hne Hs. unfold Lru.Peek in Hp. unfold Lru.Get. rewrite Hp. cbn [snd].
  set (rest := Lru.remove key (Lru.items c)).
  unfold Lru.Add. cbn [Lru.items Lru.size].
  assert (Hfound : ∀ tail, Lru.lookup key ((key', v') :: (key, v) :: tail) = Some v).
  { intros tail. unfold Lru.lookup. cbn.
    rewrite bool_decide_eq_false_2 by done. cbn.
    by rewrite bool_decide_eq_true_2. }
  destruct (Lru.lookup key' ((key, v) :: rest)) as [x|] eqn:E; unfold Lru.Peek; cbn [Lru.items].
  - unfold Lru.remove. rewrite filter_cons. cbn [fst].
    destruct (decide (key ≠ key')) as [_|Hc]; [apply Hfound|].
    destruct Hc. congruence.
  - destruct (Nat.ltb_spec (Lru.size c) (length ((key', v') :: (key, v) :: rest))) as [Hlt|_];
      [|apply Hfound].
    destruct rest as [|y rest']; [cbn in Hlt; lia|].
    change (removelast ((key', v') :: (key, v) :: y :: rest'))
      with ((key', v') :: (key, v) :: removelast (y :: rest')).
    apply Hfound.
Qed.

End Recency.

Section Eviction.

Variable jsonMarshal : outputResp → error + string.

Import Cached.

(** [push] of a new key into a full cache drops the entry used least
    recently and keeps the others, in their order. *)
Theorem push_to_full_cache_evicts_oldest
        (c : Lru.t any) (key : string) (v : any)
        (l : list (string * any)) (oldest : string * any) :
  Lru.Peek key c = None →
  Lru.items c = l ++ [oldest] →
  (length (Lru.items c) = Lru.size c)%nat →
  Lru.items (push c key v) = (key, v) :: l.
Proof. apply add_to_full_cache_evicts_oldest. Qed.

(** A hit refreshes the entry: in a cache of size two or more, the entry
    [pullAndResponse] has just served is still there after the next
    [push] of another key. *)
Theorem hit_entry_survives_next_push
        (c : Lru.t any) (key key' : string) (o : outputResp) (v' : any) (x : writer) :
  Lru.Peek key c = Some (AnyOutputResp o) →
  key' ≠ key →
  (2 ≤ Lru.size c)%nat →
  Lru.Peek key (push (pullAndResponse jsonMarshal c key x).2 key' v')
  = Some (AnyOutputResp o).
Proof.
  intros Hp Hne Hs.
  assert ((pullAndResponse jsonMarshal c key x).2 = (Lru.Get key c).2) as ->.
  { unfold pullAndResponse. destruct (Lru.Get key c) as [[[]|] c']; reflexivity. }
  by apply looked_up_entry_survives_next_add.
Qed.

End Eviction.

(** ** When an object decodes, when a handler panics *)

(** An object decodes into an [inputItem] exactly when each of its members
    is an unknown key, or a declared field with a value its Go type takes
    (for [interface{}]: any value whose numbers fit [float64]). *)
Theorem object_decodes_iff (members : list (string * Json.json)) (it : inputItem) :
  is_Some (Json.object members it) ↔ forallb Json.tolerated members = true.
Proof.
  split.
  - intros [x Hx]. destruct (forallb Json.tolerated members) eqn:E; [done|].
    by rewrite (object_rejects members it E) in Hx.
  - intros H. rewrite (object_tolerated members it H). eauto.
Qed.

(** In the variants without the cache, an upstream array with a [null]
    element makes [handlerFunc] panic in the loop before anything is
    written: the request gets no response from the handler. *)
Theorem null_element_panics_without_cache
        (jsonMarshal : outputResp → error + string)
        (latency timeout : Z) (fired : bool) (j : Json.json) (k : nat)
        (input : inputResp) :
  0 < timeout →
  latency < timeout →
  Json.unmarshal j = inr input →
  input !! k = Some None →
  (∀ s, mul64 (Plain.reqTimeout s) Millisecond = timeout →
        Plain.handlerFunc jsonMarshal s latency fired (Response StatusOK (Document j))
        = None)
  ∧ (∀ s, mul64 (Logged.reqTimeout s) Millisecond = timeout →
          Logged.handlerFunc jsonMarshal s latency fired (Response StatusOK (Document j))
          = None).
Proof.
  intros Hpos Hlat Hu Hp.
  assert (Hdone : (timeout <=? 0) || (fired && (timeout <=? latency)) = false).
  { apply orb_false_iff. split; [apply Z.leb_gt; lia|].
    apply andb_false_iff. right. apply Z.leb_gt. lia. }
  split; intros s Hs.
  - unfold Plain.handlerFunc, Plain.request. rewrite Hs, Hdone.
    cbn [fetch]. change (StatusOK =? StatusOK) with true. cbn [negb].
    rewrite Hu. by rewrite (transform_nil_element input k Hp).
  - unfold Logged.handlerFunc, Logged.request. rewrite Hs, Hdone.
    cbn [fetch]. change (StatusOK =? StatusOK) with true. cbn [negb].
    rewrite Hu. by rewrite (transform_nil_element input k Hp).
Qed.

(** ** The further properties at sample inputs *)

Lemma ctxTimeout_scaled_witness :
  Cached.ctxTimeout (Cached.newServer Cached.newConfig)
  = Cached.RequestTimeout Cached.newConfig * Millisecond * Millisecond.
Proof. apply (ctxTimeout_scaled Cached.newConfig). cbn. lia. Defined.

Lemma overlong_timeout_wraps_witness :
  Cached.ctxTimeout (Cached.newServer overlongConfig)
  = Cached.RequestTimeout overlongConfig * Millisecond * Millisecond - 18446744073709551616
  ∧ Cached.ctxTimeout (Cached.newServer overlongConfig) < 0.
Proof. apply (overlong_timeout_wraps overlongConfig). cbn. lia. Defined.

Lemma expired_context_answers_504_at_once_witness :
  ∃ st' r,
    Cached.run plainMarshal (Cached.newServer overlongConfig)
        [Cached.Arrive placesURL; Cached.Orch (length (Cached.reqs coldStart));
         Cached.Orch (length (Cached.reqs coldStart));
         Cached.Orch (length (Cached.reqs coldStart));
         Cached.Orch (length (Cached.reqs coldStart))] coldStart = Some st'
    ∧ Cached.reqs st' !! length (Cached.reqs coldStart) = Some r
    ∧ Cached.orch r = Cached.OReturned
    ∧ Cached.work r = Some Cached.WFetching
    ∧ Cached.ctx_done r = true
    ∧ Cached.w r = [HeaderAdd contentType applicationJSON;
                    WriteHeader StatusGatewayTimeout; Write internalErr]
    ∧ Cached.clock st' = Cached.clock coldStart
    ∧ Cached.cache st' = Cached.cache coldStart.
Proof.
  apply (expired_context_answers_504_at_once plainMarshal
           (Cached.newServer overlongConfig) coldStart placesURL);
    [vm_compute; discriminate | reflexivity | reflexivity].
Defined.

Lemma unmarshal_keeps_positions_witness :
  length [None; Some {| Code := "MOW"; Name := EmptyString; CountryName := EmptyString |}]
  = length [Json.JNull; Json.JObject [("code", Json.JString "MOW")]]
  ∧ ∀ (k : nat) (j : Json.json),
      [Json.JNull; Json.JObject [("code", Json.JString "MOW")]] !! k = Some j →
      ∃ p, [None; Some {| Code := "MOW"; Name := EmptyString; CountryName := EmptyString |}] !! k
           = Some p
           ∧ Json.element j = Some p
           ∧ (p = None ↔ j = Json.JNull).
Proof.
  apply (unmarshal_keeps_positions
           [Json.JNull; Json.JObject [("code", Json.JString "MOW")]]).
  reflexivity.
Defined.

Lemma miss_served_from_upstream_witness :
  ∃ st' r',
    Cached.run plainMarshal defaultServer
        [Cached.Return 0 (Response StatusOK (Document moscowDoc));
         Cached.Work 0; Cached.Work 0; Cached.Work 0; Cached.Work 0; Cached.Orch 0]
        parkedOnMiss = Some st'
    ∧ Cached.reqs st' !! 0%nat = Some r'
    ∧ Cached.orch r' = Cached.OReturned
    ∧ Cached.work r' = Some Cached.WDone
    ∧ Cached.w r' = Cached.w parkedRequest ++ [Write moscowBody]
    ∧ Lru.Peek (Cached.url parkedRequest) (Cached.cache st') = Some (AnyOutputResp moscowOutput)
    ∧ Cached.calls st' = Cached.calls parkedOnMiss ++ [(Cached.url parkedRequest, inr moscowInput)].
Proof.
  apply (miss_served_from_upstream plainMarshal defaultServer parkedOnMiss 0
           parkedRequest moscowDoc moscowInput moscowOutput moscowBody);
    try reflexivity.
  cbn. lia.
Defined.

Lemma nil_element_ends_process_witness :
  ∃ st1 r1 st2,
    Cached.step plainMarshal defaultServer (Cached.Work 0) gotNull = Some st1
    ∧ Cached.reqs st1 = <[0%nat := r1]> (Cached.reqs gotNull)
    ∧ Cached.work r1 = Some Cached.WPanicked
    ∧ Cached.orch r1
      = match Cached.orch gotNullRequest with
        | Cached.OParked => Cached.OSignalled
        | o => o
        end
    ∧ Cached.w r1 = Cached.w gotNullRequest
    ∧ Cached.cache st1 = Cached.cache gotNull
    ∧ Cached.calls st1 = Cached.calls gotNull
    ∧ Cached.crashed st1 = false
    ∧ (Cached.orch gotNullRequest = Cached.OParked →
       ∃ st3 r3, Cached.step plainMarshal defaultServer (Cached.Orch 0) st1 = Some st3
                 ∧ Cached.reqs st3 !! 0%nat = Some r3
                 ∧ Cached.orch r3 = Cached.OReturned
                 ∧ Cached.w r3 = Cached.w gotNullRequest)
    ∧ Cached.step plainMarshal defaultServer (Cached.Work 0) st1 = Some st2
    ∧ Cached.crashed st2 = true
    ∧ Cached.cache st2 = Cached.cache gotNull
    ∧ Cached.reqs st2 = Cached.reqs st1
    ∧ ∀ sched, sched ≠ [] → Cached.run plainMarshal defaultServer sched st2 = None.
Proof.
  apply (nil_element_ends_process plainMarshal defaultServer gotNull 0
           gotNullRequest [None] 0); reflexivity.
Defined.

Lemma writers_stay_bounded_witness :
  (body_writes (Cached.w twiceWritten) ≤ 2)%nat
  ∧ (status_writes (Cached.w twiceWritten) ≤ 1)%nat
  ∧ (∀ code, WriteHeader code ∈ Cached.w twiceWritten → code = StatusGatewayTimeout)
  ∧ (Cached.w twiceWritten = []
     ∨ ∃ rest, Cached.w twiceWritten = HeaderAdd contentType applicationJSON :: rest).
Proof.
  apply (writers_stay_bounded plainMarshal Cached.newConfig
           (missAndPark ++ deadlinePath ++ Cached.Return 0 moscowReply :: failurePath)
           coldStart afterSecondWrite 0 twiceWritten);
    [reflexivity | vm_compute; reflexivity | reflexivity].
Defined.

Lemma cache_within_size_witness :
  (length (Lru.items (Cached.cache afterTwoMisses)) ≤ Z.to_nat (Cached.CacheSize tinyConfig))%nat
  ∧ NoDup (Lru.items (Cached.cache afterTwoMisses)).*1.
Proof.
  apply (cache_within_size plainMarshal tinyConfig twoMisses tinyStart afterTwoMisses);
    [reflexivity | vm_compute; reflexivity].
Defined.

Lemma request_called_once_per_miss_witness :
  length (Cached.calls afterTwoMisses)
  = length (filter (λ r, called r = true) (Cached.reqs afterTwoMisses))
  ∧ (length (Cached.calls afterTwoMisses) ≤ length (Cached.reqs afterTwoMisses))%nat.
Proof.
  apply (request_called_once_per_miss plainMarshal tinyConfig twoMisses tinyStart afterTwoMisses);
    [reflexivity | vm_compute; reflexivity].
Defined.

Lemma push_then_pull_hits_witness :
  ∃ c', Cached.pullAndResponse plainMarshal
          (Cached.push fullOfOne otherURL (AnyOutputResp moscowOutput)) otherURL []
        = (true,
           [] ++ match plainMarshal moscowOutput with
                 | inr body => [Write body]
                 | inl _ => []
                 end,
           c')
        ∧ Lru.Peek otherURL c' = Some (AnyOutputResp moscowOutput).
Proof.
  apply (push_then_pull_hits plainMarshal fullOfOne otherURL moscowOutput []).
  cbn. lia.
Defined.

Lemma push_to_full_cache_evicts_oldest_witness :
  Lru.items (Cached.push fullOfOne otherURL (AnyOutputResp []))
  = [(otherURL, AnyOutputResp [])].
Proof.
  apply (push_to_full_cache_evicts_oldest fullOfOne otherURL (AnyOutputResp []) []
           (placesURL, AnyOutputResp moscowOutput)); reflexivity.
Defined.

Lemma hit_entry_survives_next_push_witness :
  Lru.Peek placesURL
    (Cached.push (Cached.pullAndResponse plainMarshal twoOfTwo placesURL []).2
       "/v2/places.json?term=Rome" (AnyOutputResp []))
  = Some (AnyOutputResp moscowOutput).
Proof.
  apply (hit_entry_survives_next_push plainMarshal twoOfTwo placesURL
           "/v2/places.json?term=Rome" moscowOutput (AnyOutputResp []) []);
    [reflexivity | discriminate | cbn; lia].
Defined.

Lemma null_element_panics_without_cache_witness :
  (∀ s, mul64 (Plain.reqTimeout s) Millisecond = 3000000000000000 →
        Plain.handlerFunc plainMarshal s 1000 false
          (Response StatusOK (Document (Json.JArray [Json.JNull]))) = None)
  ∧ (∀ s, mul64 (Logged.reqTimeout s) Millisecond = 3000000000000000 →
          Logged.handlerFunc plainMarshal s 1000 false
            (Response StatusOK (Document (Json.JArray [Json.JNull]))) = None).
Proof.
  apply (null_element_panics_without_cache plainMarshal 1000 3000000000000000 false
           (Json.JArray [Json.JNull]) 0 [None]);
    [lia | lia | reflexivity | reflexivity].
Defined.

Lemma Logged_serves_transformed_body_witness :
  Logged.handlerFunc plainMarshal (Logged.newServer Logged.newConfig) 1000 false
    (Response StatusOK (Document (Json.JArray (Json.JObject <$> tolerantObjects))))
  = Some [HeaderAdd contentType applicationJSON; Write tolerantBody].
Proof.
  apply (Logged_serves_transformed_body plainMarshal
           (Logged.newServer Logged.newConfig) 1000 false tolerantObjects tolerantBody);
    [vm_compute; reflexivity | vm_compute; reflexivity | repeat constructor | reflexivity].
Defined.

Lemma slow_upstream_fails_without_cache_witness :
  (∀ s, mul64 (Plain.reqTimeout s) Millisecond = 3000000000000000 →
        Plain.handlerFunc plainMarshal s 4000000000000000 true moscowReply
        = Some [WriteHeader StatusGatewayTimeout])
  ∧ (∀ s, mul64 (Logged.reqTimeout s) Millisecond = 3000000000000000 →
          Logged.handlerFunc plainMarshal s 4000000000000000 true moscowReply
          = Some [HeaderAdd contentType applicationJSON;
                  WriteHeader StatusInternalServerError; Write internalErr]).
Proof.
  apply (slow_upstream_fails_without_cache plainMarshal
           4000000000000000 3000000000000000 moscowReply). lia.
Defined.

Lemma timeout_branch_writes_504_witness :
  ∃ st' r',
    Cached.run plainMarshal defaultServer [Cached.Orch 0; Cached.Orch 0] timerFired = Some st'
    ∧ Cached.reqs st' !! 0%nat = Some r'
    ∧ Cached.orch r' = Cached.OReturned
    ∧ status_of (Cached.w r') = Some StatusGatewayTimeout
    ∧ body_of (Cached.w r') = internalErr.
Proof.
  apply (timeout_branch_writes_504 plainMarshal defaultServer 0 timerFired wokenRequest);
    reflexivity.
Defined.

Lemma failure_path_status_200_witness :
  ∃ st' r',
    Cached.run plainMarshal defaultServer
      [Cached.Return 0 (Response 503 Unreadable); Cached.Work 0] parkedOnMiss = Some st'
    ∧ Cached.reqs st' !! 0%nat = Some r'
    ∧ Cached.work r' = Some Cached.WSignal
    ∧ status_of (Cached.w r') = Some StatusOK
    ∧ body_of (Cached.w r') = body_of (Cached.w parkedRequest) +:+ internalErr
    ∧ Cached.cache st' = Cached.cache parkedOnMiss
    ∧ Cached.calls st' = Cached.calls parkedOnMiss ++ [(Cached.url parkedRequest, inl (ErrStatus 503))].
Proof.
  apply (failure_path_status_200 plainMarshal defaultServer 0 parkedOnMiss parkedRequest
           (Response 503 Unreadable) (ErrStatus 503)); reflexivity.
Defined.

Lemma returned_handler_cancels_worker_witness :
  Cached.ctx_done timedOutRequest = true
  ∧ (∃ e, Cached.request (Cached.ctx_done timedOutRequest) moscowReply = inl e)
  ∧ ∃ st' r',
      Cached.run plainMarshal (Cached.newServer Cached.newConfig)
        [Cached.Return 0 moscowReply; Cached.Work 0] answeredByDeadline = Some st'
      ∧ Cached.reqs st' !! 0%nat = Some r'
      ∧ Cached.orch r' = Cached.OReturned
      ∧ Cached.w r' = Cached.w timedOutRequest ++ [Write internalErr].
Proof.
  apply (returned_handler_cancels_worker plainMarshal Cached.newConfig
           (missAndPark ++ deadlinePath) coldStart answeredByDeadline 0
           timedOutRequest moscowReply);
    [reflexivity | vm_compute; reflexivity | reflexivity | reflexivity
    | reflexivity | reflexivity].
Defined.
